(** * Knowledge-Base front end: the query view, the document list view and
      the API client, embedded from the TypeScript sources.

    - [JS]            the JavaScript built-ins the sources call: strings as
                      sequences of UTF-16 code units, [trim], truthiness,
                      [Set], and the regular expressions of the query view
                      with [String.prototype.match].
    - [Service]       [knowledge-base.service.ts].
    - [Query]         [query.component.ts].
    - [DocumentList]  [document-list.component.ts], with the RxJS pipeline
                      [interval(10000).pipe(switchMap(...)).subscribe(...)].
    - [Citation]      the citation markers of an answer, defined without
                      the pattern matcher, to compare [Query] with.

    - [App]           the route table of the application module.

    The modules that follow hold the proofs: [MatcherFacts],
    [StringFacts], [CitationFacts], [QueryProofs], [ServiceProofs] and
    [DocumentListProofs]; then [QueryExtras], [ServiceExtras],
    [AppProofs] and [DocumentListExtras], on sequences of events, on
    [formatContent], on the routes and on the local storage. *)

From Stdlib Require Import Ascii String.
From Stdlib Require Import NArith Bool PeanoNat Lia List.
Import ListNotations.

Open Scope string_scope.
Open Scope list_scope.

(* ===================================================================== *)
(** ** JavaScript built-ins                                               *)
(* ===================================================================== *)

Module JS.

(** A JavaScript string is a sequence of UTF-16 code units. *)
Definition jsstring := list N.

(** An ASCII literal of the source, as code units. *)
Definition lit (s : string) : jsstring :=
  map N_of_ascii (list_ascii_of_string s).

Fixpoint str_eqb (a b : jsstring) : bool :=
  match a, b with
  | [], [] => true
  | x :: a', y :: b' => N.eqb x y && str_eqb a' b'
  | _, _ => false
  end.

(** ECMAScript LineTerminator: LF, CR, LS, PS.  The regular expression
    atom [.] (without the [s] flag) matches every code unit but these. *)
Definition isLineTerminator (c : N) : bool :=
  (N.eqb c 10 || N.eqb c 13 || N.eqb c 8232 || N.eqb c 8233)%bool.

(** ECMAScript WhiteSpace: TAB, VT, FF, SP, NBSP, ZWNBSP and the Unicode
    space separators (U+1680, U+2000..U+200A, U+202F, U+205F, U+3000). *)
Definition isWhiteSpace (c : N) : bool :=
  (N.eqb c 9 || N.eqb c 11 || N.eqb c 12 || N.eqb c 32 || N.eqb c 160
   || N.eqb c 5760 || (N.leb 8192 c && N.leb c 8202)
   || N.eqb c 8239 || N.eqb c 8287 || N.eqb c 12288 || N.eqb c 65279)%bool.

(** What [String.prototype.trim] strips: WhiteSpace and LineTerminator. *)
Definition isTrimmable (c : N) : bool :=
  (isWhiteSpace c || isLineTerminator c)%bool.

Fixpoint trimStart (s : jsstring) : jsstring :=
  match s with
  | [] => []
  | c :: s' => if isTrimmable c then trimStart s' else s
  end.

Definition trimEnd (s : jsstring) : jsstring := rev (trimStart (rev s)).

Definition trim (s : jsstring) : jsstring := trimEnd (trimStart s).

(** ToBoolean on a string: only the empty string is falsy. *)
Definition truthy (s : jsstring) : bool :=
  match s with [] => false | _ :: _ => true end.

(** A string made of trimmable code units only (the empty one included). *)
Definition blank (s : jsstring) : bool := forallb isTrimmable s.

(** *** [Set]: insertion-ordered, values compared by content *)

Fixpoint mem (x : jsstring) (l : list jsstring) : bool :=
  match l with
  | [] => false
  | y :: l' => (str_eqb x y || mem x l')%bool
  end.

(** [Set.prototype.add]: a value already present keeps its place. *)
Definition Set_add (set : list jsstring) (x : jsstring) : list jsstring :=
  if mem x set then set else set ++ [x].

(** [new Set(iterable)]: the elements are added in iteration order. *)
Definition new_Set (l : list jsstring) : list jsstring :=
  fold_left Set_add l [].

(** *** Regular expressions

    The two patterns of the query view are sequences of literal code
    units and lazy [.*?] runs, one of them in a capturing group. *)

Inductive atom :=
| Chr (c : N)                  (* a literal code unit *)
| LazyDots (capture : bool).   (* [.*?], or [(.*?)] when [capture] *)

Definition regex := list atom.

Definition chars (s : string) : regex := map Chr (lit s).

Record MatchResult := mkMatch {
  matched : jsstring;          (* the text the pattern consumed *)
  groups : list jsstring;      (* the captures, in order *)
  rest : jsstring              (* the input after the match *)
}.

Definition consume (x : N) (r : MatchResult) : MatchResult :=
  mkMatch (x :: matched r) (groups r) (rest r).

Definition prepend (p : jsstring) (r : MatchResult) : MatchResult :=
  mkMatch (p ++ matched r) (groups r) (rest r).

Definition with_dots (capture : bool) (dots : jsstring) (r : MatchResult)
  : MatchResult :=
  mkMatch (dots ++ matched r)
          ((if capture then [dots] else []) ++ groups r)
          (rest r).

(** A lazy run [.*?] followed by the rest of the pattern [k]: first try
    [k] where the run stands, and only when that fails take one more code
    unit (never a line terminator) and try again. *)
Fixpoint lazy_dots (k : jsstring -> option MatchResult) (s : jsstring)
  : option (jsstring * MatchResult) :=
  match k s with
  | Some r => Some ([], r)
  | None =>
      match s with
      | x :: s' =>
          if isLineTerminator x then None
          else match lazy_dots k s' with
               | Some (dots, r) => Some (x :: dots, r)
               | None => None
               end
      | [] => None
      end
  end.

(** The backtracking matcher, anchored at the head of [s]. *)
Fixpoint match_here (re : regex) (s : jsstring) : option MatchResult :=
  match re with
  | [] => Some (mkMatch [] [] s)
  | Chr c :: re' =>
      match s with
      | x :: s' =>
          if N.eqb x c then option_map (consume x) (match_here re' s')
          else None
      | [] => None
      end
  | LazyDots capture :: re' =>
      match lazy_dots (match_here re') s with
      | Some (dots, r) => Some (with_dots capture dots r)
      | None => None
      end
  end.

(** [RegExp.prototype.exec] from the head of [s]: the leftmost position
    at which the pattern matches. *)
Fixpoint exec (re : regex) (s : jsstring) : option MatchResult :=
  match match_here re s with
  | Some r => Some r
  | None =>
      match s with
      | [] => None
      | _ :: s' => exec re s'
      end
  end.

(** [s.match(re)] for a pattern without the [g] flag: [null], or the array
    whose element 0 is the matched text and whose element [i] is the
    [i]-th capture. *)
Definition match_first (re : regex) (s : jsstring) : option (list jsstring) :=
  match exec re s with
  | Some r => Some (matched r :: groups r)
  | None => None
  end.

(** The matched texts of the successive matches.  After a match of [n]
    code units at some position, [lastIndex] moves [n] positions on (one
    position when [n] is 0): the next [n - 1] positions are skipped. *)
Fixpoint scan (re : regex) (skip : nat) (s : jsstring) : list jsstring :=
  match skip with
  | S k =>
      match s with
      | [] => []
      | _ :: s' => scan re k s'
      end
  | O =>
      match match_here re s with
      | Some r =>
          matched r ::
            match s with
            | [] => []
            | _ :: s' => scan re (pred (length (matched r))) s'
            end
      | None =>
          match s with
          | [] => []
          | _ :: s' => scan re 0 s'
          end
      end
  end.

(** [s.match(re)] for a pattern with the [g] flag: [null] when nothing
    matches, else the array of all matched texts. *)
Definition match_all (re : regex) (s : jsstring) : option (list jsstring) :=
  match scan re 0 s with
  | [] => None
  | ms => Some ms
  end.

(** [s.replace(re, by)] for a pattern with the [g] flag and a replacement
    text without [$]: every match gives way to [by], the code units between
    the matches are kept.  [skip] positions are still inside the match
    before; after an empty match the code unit at hand is kept and the
    search goes on behind it. *)
Fixpoint replace_all (re : regex) (by_text : jsstring) (skip : nat)
  (s : jsstring) : jsstring :=
  match skip with
  | S k =>
      match s with
      | [] => []
      | _ :: s' => replace_all re by_text k s'
      end
  | O =>
      match match_here re s with
      | Some r =>
          by_text ++
            match length (matched r), s with
            | _, [] => []
            | O, x :: s' => x :: replace_all re by_text 0 s'
            | S n, _ :: s' => replace_all re by_text n s'
            end
      | None =>
          match s with
          | [] => []
          | x :: s' => x :: replace_all re by_text 0 s'
          end
      end
  end.

End JS.

Import JS.

(* ===================================================================== *)
(** ** Handlers: state passing with a log of what they emit               *)
(* ===================================================================== *)

(** A handler of a component runs to completion on the UI thread: it
    reads and writes the component's fields and emits events (a browser
    call, an HTTP request, a field write), in program order. *)
Section Handler.
Variables (St Ev : Type).

Definition M (A : Type) : Type := St -> A * St * list Ev.

Definition ret {A} (a : A) : M A := fun st => (a, st, []).

Definition bind {A B} (m : M A) (k : A -> M B) : M B :=
  fun st =>
    let '(a, st1, e1) := m st in
    let '(b, st2, e2) := k a st1 in
    (b, st2, e1 ++ e2).

Definition emit (e : Ev) : M unit := fun st => (tt, st, [e]).

Definition read {A} (f : St -> A) : M A := fun st => (f st, st, []).

(** A field write: the new state, and the write in the log. *)
Definition write (upd : St -> St) (e : Ev) : M unit :=
  fun st => (tt, upd st, [e]).

(** [a] is logged before [b]. *)
Definition before (a b : Ev) (log : list Ev) : Prop :=
  exists l1 l2 l3, log = l1 ++ a :: l2 ++ b :: l3.

Definition state_after {A} (m : M A) (st : St) : St := snd (fst (m st)).
Definition emitted {A} (m : M A) (st : St) : list Ev := snd (m st).
End Handler.

Arguments ret {St Ev A} a.
Arguments bind {St Ev A B} m k.
Arguments emit {St Ev} e.
Arguments read {St Ev A} f.
Arguments write {St Ev} upd e.
Arguments state_after {St Ev A} m st.
Arguments emitted {St Ev A} m st.
Arguments before {Ev} a b log.

Declare Scope handler_scope.
Delimit Scope handler_scope with handler.
Notation "x <- m ;; k" := (bind m (fun x => k))
  (at level 61, m at next level, right associativity) : handler_scope.
Notation "m ;; k" := (bind m (fun _ => k))
  (at level 61, right associativity) : handler_scope.
Open Scope handler_scope.

(* ===================================================================== *)
(** ** knowledge-base.service.ts                                          *)
(* ===================================================================== *)

Module Service.

Record Document := mkDocument {
  filename : jsstring;
  path : jsstring;
  last_modified : option jsstring
}.

(** What the server answers to a query ([Observable<any>] in the source):
    both fields may be missing. *)
Record QueryResponse := mkResponse {
  answer : option jsstring;
  source_documents : option (list jsstring)
}.

(** An HTTP request as [HttpClient] sends it once subscribed to. *)
Inductive Request :=
| POST (url : jsstring) (query : jsstring)    (* body [{ query }] *)
| GET (url : jsstring).

Definition apiUrl : jsstring := lit "http://localhost:8000".

Definition queryKnowledgeBase (query : jsstring) : Request :=
  POST (apiUrl ++ lit "/query") query.

Definition getDocuments : Request :=
  GET (apiUrl ++ lit "/documents").

Definition getDownloadUrl (filename : jsstring) : jsstring :=
  apiUrl ++ lit "/download/" ++ filename.

(** The address and, for a POST, the query of a request. *)
Definition url_of (r : Request) : jsstring :=
  match r with POST url _ => url | GET url => url end.

Definition query_of (r : Request) : option jsstring :=
  match r with POST _ q => Some q | GET _ => None end.

End Service.

(* ===================================================================== *)
(** ** query.component.ts                                                 *)
(* ===================================================================== *)

Module Query.
Import Service.

Inductive Role := user | assistant.

Record ChatMessage := mkMessage {
  role : Role;
  content : jsstring;
  sources : option (list jsstring)     (* [sources?: string[]] *)
}.

Record QueryComponent := mkQuery {
  query : jsstring;
  isLoading : bool;
  errorMessage : jsstring;
  messages : list ChatMessage
}.

(** The component as constructed. *)
Definition initial : QueryComponent := mkQuery [] false [] [].

(** The two properties of a [KeyboardEvent] the handler reads. *)
Record KeyboardEvent := mkKey {
  key : jsstring;
  shiftKey : bool
}.

(** What a handler of the component does, in program order. *)
Inductive Event :=
| Enter_submitQuery                  (* [submitQuery()] is entered *)
| PreventDefault                     (* [event.preventDefault()] *)
| Set_isLoading (b : bool)
| Set_errorMessage (s : jsstring)
| Set_query (s : jsstring)
| Push_message (m : ChatMessage)     (* [this.messages.push(m)] *)
| Send (r : Request)                 (* [.subscribe(...)]: the request leaves *)
| Console_error (label : jsstring).

Definition H := M QueryComponent Event.

Definition set_isLoading (b : bool) : H unit :=
  write (fun st => mkQuery (query st) b (errorMessage st) (messages st))
        (Set_isLoading b).

Definition set_errorMessage (s : jsstring) : H unit :=
  write (fun st => mkQuery (query st) (isLoading st) s (messages st))
        (Set_errorMessage s).

Definition set_query (s : jsstring) : H unit :=
  write (fun st => mkQuery s (isLoading st) (errorMessage st) (messages st))
        (Set_query s).

Definition push_message (m : ChatMessage) : H unit :=
  write (fun st =>
           mkQuery (query st) (isLoading st) (errorMessage st)
                   (messages st ++ [m]))
        (Push_message m).

(** [/\(Source: .*?id:(.*?)\)/g] *)
Definition re_source : regex :=
  chars "(Source: " ++ [LazyDots false] ++ chars "id:"
    ++ [LazyDots true] ++ chars ")".

(** [/id:(.*?)\)/] *)
Definition re_id : regex :=
  chars "id:" ++ [LazyDots true] ++ chars ")".

(** The function mapped over [sourceMatches]:
    [idMatch ? idMatch[1].trim() : ''] *)
Definition id_of (m : jsstring) : jsstring :=
  match match_first re_id m with
  | Some idMatch => trim (nth 1 idMatch [])
  | None => []
  end.

(** The [else] branch on [response.source_documents]. *)
Definition extract_sources (answerText : jsstring) : list jsstring :=
  match match_all re_source answerText with
  | Some sourceMatches =>
      filter truthy (new_Set (map id_of sourceMatches))
  | None => []
  end.

Definition fallback : jsstring :=
  lit "No relevant information found. Please rephrase or try another query.".

(** [response?.answer && response.answer.trim()], as a boolean. *)
Definition has_answer (response : option QueryResponse) : bool :=
  match response with
  | Some r =>
      match answer r with
      | Some a => truthy a && truthy (trim a)
      | None => false
      end
  | None => false
  end.

(** [answerText] and [sources] as the [next] callback computes them. *)
Definition render (response : option QueryResponse)
  : jsstring * list jsstring :=
  match response with
  | Some (mkResponse (Some a) docs) =>
      if has_answer response then
        (a, match docs with
            | Some source_documents => source_documents
            | None => extract_sources a
            end)
      else (fallback, [])
  | _ => (fallback, [])
  end.

(** The [next] callback of the subscription. *)
Definition next (response : option QueryResponse) : H unit :=
  let '(answerText, sources) := render response in
  push_message (mkMessage assistant answerText (Some sources)) ;;
  set_isLoading false.

Definition error_text : jsstring :=
  lit "An error occurred while processing your query. Please try again.".

(** The [error] callback of the subscription. *)
Definition error : H unit :=
  emit (Console_error (lit "Error querying knowledge base:")) ;;
  set_errorMessage error_text ;;
  set_isLoading false.

Definition submitQuery : H unit :=
  emit Enter_submitQuery ;;
  q <- read query ;;
  if negb (truthy (trim q)) then
    set_errorMessage (lit "Please enter a query")
  else
    set_isLoading true ;;
    set_errorMessage [] ;;
    userMessage <- read query ;;
    push_message (mkMessage user userMessage None) ;;
    set_query [] ;;
    emit (Send (queryKnowledgeBase userMessage)).

Definition onKeydown (event : KeyboardEvent) : H unit :=
  if str_eqb (key event) (lit "Enter") && negb (shiftKey event) then
    emit PreventDefault ;;
    submitQuery
  else ret tt.

(** How the HTTP call of a submission ends. *)
Inductive Outcome :=
| Succeeds (response : option QueryResponse)
| Fails.

Definition resolve (o : Outcome) : H unit :=
  match o with
  | Succeeds response => next response
  | Fails => error
  end.

(** *** Reading a log *)

Definition pushed (evs : list Event) : list ChatMessage :=
  flat_map (fun e => match e with Push_message m => [m] | _ => [] end) evs.

Definition sent (evs : list Event) : list Request :=
  flat_map (fun e => match e with Send r => [r] | _ => [] end) evs.

Definition entries_of (r : Role) (ms : list ChatMessage) : list ChatMessage :=
  filter (fun m => match role m, r with
                   | user, user | assistant, assistant => true
                   | _, _ => false
                   end) ms.

(** The field writes of a log, done again on a state. *)
Definition apply_event (st : QueryComponent) (e : Event) : QueryComponent :=
  match e with
  | Set_isLoading b => mkQuery (query st) b (errorMessage st) (messages st)
  | Set_errorMessage s => mkQuery (query st) (isLoading st) s (messages st)
  | Set_query s => mkQuery s (isLoading st) (errorMessage st) (messages st)
  | Push_message m =>
      mkQuery (query st) (isLoading st) (errorMessage st) (messages st ++ [m])
  | Enter_submitQuery | PreventDefault | Send _ | Console_error _ => st
  end.

Definition replay (log : list Event) (st : QueryComponent) : QueryComponent :=
  fold_left apply_event log st.

Definition submissions (evs : list Event) : nat :=
  length (filter (fun e => match e with Enter_submitQuery => true | _ => false end)
                 evs).

(** [content.replace(/\n/g, '<br>')] *)
Definition formatContent (content : jsstring) : jsstring :=
  replace_all [Chr 10] (lit "<br>") 0 content.

(** What happens to the view: the input box is edited (the binding of
    the template writes [query]), a key goes down in it, [submitQuery] is
    called from the template, a call ends. *)
Inductive Input :=
| Edit (text : jsstring)
| Keydown (event : KeyboardEvent)
| Submit
| Resolved (o : Outcome).

Definition handle (i : Input) : H unit :=
  match i with
  | Edit text => set_query text
  | Keydown event => onKeydown event
  | Submit => submitQuery
  | Resolved o => resolve o
  end.

Fixpoint run (inputs : list Input) : H unit :=
  match inputs with
  | [] => ret tt
  | i :: rest => handle i ;; run rest
  end.

Definition is_success (i : Input) : bool :=
  match i with
  | Resolved (Succeeds _) => true
  | _ => false
  end.

(** The requests of a log are, one for one and in order, its user
    entries; each goes to the query address with a text that is not
    blank. *)
Definition paired (log : list Event) : Prop :=
  map query_of (sent log)
  = map (fun m => Some (content m)) (entries_of user (pushed log))
  /\ Forall (fun r => url_of r = apiUrl ++ lit "/query"
                      /\ exists q, query_of r = Some q /\ trim q <> [])
            (sent log).

End Query.

(* ===================================================================== *)
(** ** document-list.component.ts                                         *)
(* ===================================================================== *)

Module DocumentList.
Import Service.

Record DocumentListComponent := mkList {
  documents : list Document;
  isLoading : bool;
  localStorageItems : list (jsstring * jsstring)
}.

(** The two subscriptions of the component that wait for an HTTP answer. *)
Inductive Subscriber :=
| Load         (* the observer passed in [loadDocuments] *)
| Refresh.     (* the inner subscription [switchMap] holds in [ngOnInit] *)

(** The component together with the RxJS subscriptions it has created.
    [in_flight] holds the requests that were sent and whose subscription
    is still open; [polling] says whether the subscription to
    [interval(10000).pipe(switchMap(...))] is open. *)
Record World := mkWorld {
  this : DocumentListComponent;
  next_id : nat;
  in_flight : list (nat * Subscriber);
  polling : bool
}.

Inductive Event :=
| Set_documents (ds : list Document)
| Set_isLoading (b : bool)
| Set_localStorageItems (items : list (jsstring * jsstring))
| Send (id : nat) (r : Request)
| Console_error (label : jsstring).

Definition H := M World Event.

(** The component and the world as constructed. *)
Definition initial : DocumentListComponent := mkList [] true [].
Definition world0 : World := mkWorld initial 0 [] false.

Definition on_this (f : DocumentListComponent -> DocumentListComponent)
  (w : World) : World :=
  mkWorld (f (this w)) (next_id w) (in_flight w) (polling w).

Definition set_documents (ds : list Document) : H unit :=
  write (on_this (fun c => mkList ds (isLoading c) (localStorageItems c)))
        (Set_documents ds).

Definition set_isLoading (b : bool) : H unit :=
  write (on_this (fun c => mkList (documents c) b (localStorageItems c)))
        (Set_isLoading b).

Definition set_localStorageItems (items : list (jsstring * jsstring))
  : H unit :=
  write (on_this (fun c => mkList (documents c) (isLoading c) items))
        (Set_localStorageItems items).

(** [observable.subscribe(observer)] on an [HttpClient] observable: the
    request is sent, and [observer] is notified when it is answered. *)
Definition subscribe (r : Request) (observer : Subscriber) : H unit :=
  fun w =>
    (tt,
     mkWorld (this w) (S (next_id w))
             (in_flight w ++ [(next_id w, observer)]) (polling w),
     [Send (next_id w) r]).

(** Closing the subscriptions that [keep] rejects: the answers to their
    requests are dropped. *)
Definition retain (keep : nat * Subscriber -> bool) : H unit :=
  fun w =>
    (tt, mkWorld (this w) (next_id w) (filter keep (in_flight w)) (polling w),
     []).

Definition set_polling (b : bool) : H unit :=
  fun w => (tt, mkWorld (this w) (next_id w) (in_flight w) b, []).

Definition observer_of (id : nat) (w : World) : option Subscriber :=
  option_map snd (find (fun p => Nat.eqb (fst p) id) (in_flight w)).

(** *** The methods of the component *)

(** The observer of [loadDocuments]. *)
Definition load_next (ds : list Document) : H unit :=
  set_documents ds ;;
  set_isLoading false.

Definition load_error : H unit :=
  emit (Console_error (lit "Error loading documents:")) ;;
  set_isLoading false.

Definition loadDocuments : H unit :=
  set_isLoading true ;;
  subscribe getDocuments Load.

(** The observer of the polling pipeline of [ngOnInit]. *)
Definition refresh_next (ds : list Document) : H unit :=
  set_documents ds.

Definition refresh_error : H unit :=
  emit (Console_error (lit "Error refreshing documents:")).

Definition getDownloadUrl (filename : jsstring) : jsstring :=
  Service.getDownloadUrl filename.

(** [localStorage], as its key/value pairs in index order. *)
Definition Storage := list (jsstring * jsstring).

Definition getItem (ls : Storage) (k : jsstring) : option jsstring :=
  option_map snd (find (fun kv => str_eqb (fst kv) k) ls).

Definition loadLocalStorageItems (ls : Storage) : H unit :=
  set_localStorageItems
    (flat_map
       (fun kv =>
          let key := fst kv in
          if truthy key then
            [(key, match getItem ls key with
                   | Some v => if truthy v then v else []
                   | None => []
                   end)]
          else [])
       ls).

Definition ngOnInit (ls : Storage) : H unit :=
  loadDocuments ;;
  loadLocalStorageItems ls ;;
  (* interval(10000).pipe(switchMap(...)).subscribe({next, error}) *)
  set_polling true.

(** *** What RxJS does with the pipeline

    [interval(10000)] emits every 10 seconds while it is subscribed to.
    On each emission [switchMap] closes the inner subscription it holds,
    if any, and subscribes to a fresh [getDocuments()].  A value of the
    inner observable goes to [next]; an error of the inner observable is
    an error of the whole pipeline: it goes to [error], and, an error
    being the last notification of an observable, the subscription is
    closed and its interval torn down. *)

Definition is_load (p : nat * Subscriber) : bool :=
  match snd p with Load => true | Refresh => false end.

Definition tick : H unit :=
  on <- read polling ;;
  if on : bool then
    retain is_load ;;
    subscribe getDocuments Refresh
  else ret tt.

Inductive Result :=
| Ok (ds : list Document)
| Failed.

(** The answer to request [id] arrives. *)
Definition respond (id : nat) (res : Result) : H unit :=
  who <- read (observer_of id) ;;
  match who with
  | None => ret tt
  | Some Load =>
      retain (fun p => negb (Nat.eqb (fst p) id)) ;;
      match res with
      | Ok ds => load_next ds
      | Failed => load_error
      end
  | Some Refresh =>
      retain (fun p => negb (Nat.eqb (fst p) id)) ;;
      match res with
      | Ok ds => refresh_next ds
      | Failed =>
          refresh_error ;;
          set_polling false
      end
  end.

(** What happens to the view after [ngOnInit]. *)
Inductive Input :=
| Tick                                   (* 10 more seconds have passed *)
| Response (id : nat) (res : Result).

Definition handle (i : Input) : H unit :=
  match i with
  | Tick => tick
  | Response id res => respond id res
  end.

Fixpoint run (inputs : list Input) : H unit :=
  match inputs with
  | [] => ret tt
  | i :: rest => handle i ;; run rest
  end.

(** The view once Angular has called [ngOnInit]. *)
Definition booted (ls : Storage) : World := state_after (ngOnInit ls) world0.

Definition sent (evs : list Event) : list (nat * Request) :=
  flat_map (fun e => match e with Send id r => [(id, r)] | _ => [] end) evs.

Definition is_success (i : Input) : bool :=
  match i with
  | Response _ (Ok _) => true
  | _ => false
  end.

(** The requests in flight of each of the two observers. *)
Definition loads (w : World) : list (nat * Subscriber) :=
  filter is_load (in_flight w).

Definition refreshes (w : World) : list (nat * Subscriber) :=
  filter (fun p => negb (is_load p)) (in_flight w).

Definition is_tick (i : Input) : bool :=
  match i with Tick => true | Response _ _ => false end.

Definition answers_initial (i : Input) : bool :=
  match i with
  | Response 0 _ => true
  | _ => false
  end.

(** What holds of a started view: the request of [loadDocuments] has
    number 0 and is the only one observed by [Load], the numbers in flight
    have been given out already, and the view is loading exactly while
    request 0 is in flight. *)
Definition started (w : World) : Prop :=
  1 <= next_id w
  /\ Forall (fun p => fst p < next_id w
                      /\ (is_load p = true <-> fst p = 0))
            (in_flight w)
  /\ (isLoading (this w) = true <-> In (0, Load) (in_flight w)).

(** The document lists the answers of [inputs] carry. *)
Definition payloads (inputs : list Input) : list (list Document) :=
  flat_map (fun i => match i with
                     | Response _ (Ok ds) => [ds]
                     | _ => []
                     end) inputs.

End DocumentList.

(* ===================================================================== *)
(** ** Citation markers, as the specification words them                  *)
(* ===================================================================== *)

(** Scan the answer for the occurrences of [(Source: ... id:<ID>)], take
    the [<ID>] of each, trim it, keep the first of equal identifiers, drop
    the empty ones.  Nothing here goes through the pattern matcher. *)
Module Citation.

(** [strip p s]: what follows the prefix [p] of [s]. *)
Fixpoint strip (p s : jsstring) : option jsstring :=
  match p, s with
  | [], _ => Some s
  | c :: p', x :: s' => if N.eqb x c then strip p' s' else None
  | _ :: _, [] => None
  end.

(** [upto p s]: the text of [s] before the first [p] and the text after
    it, when [p] occurs before the first line break of [s]. *)
Fixpoint upto (p s : jsstring) : option (jsstring * jsstring) :=
  match strip p s with
  | Some r => Some ([], r)
  | None =>
      match s with
      | [] => None
      | x :: s' =>
          if isLineTerminator x then None
          else match upto p s' with
               | Some (u, r) => Some (x :: u, r)
               | None => None
               end
      end
  end.

(** The text of a marker and of its tail [id:<ID>)]. *)
Definition id_text (id : jsstring) : jsstring := lit "id:" ++ id ++ lit ")".
Definition marker_text (u id : jsstring) : jsstring :=
  lit "(Source: " ++ u ++ id_text id.

(** A marker at the head of [s]: its identifier, and how long it is. *)
Definition marker (s : jsstring) : option (jsstring * nat) :=
  match strip (lit "(Source: ") s with
  | Some t =>
      match upto (lit "id:") t with
      | Some (u, v) =>
          match upto (lit ")") v with
          | Some (id, _) => Some (id, 9 + length u + 3 + length id + 1)
          | None => None
          end
      | None => None
      end
  | None => None
  end.

(** The identifiers of the markers of [s], left to right; a marker starts
    where the one before it has ended, or later ([skip] positions are
    still inside the marker before). *)
Fixpoint markers (skip : nat) (s : jsstring) : list jsstring :=
  match skip with
  | S k =>
      match s with
      | [] => []
      | _ :: s' => markers k s'
      end
  | O =>
      match marker s with
      | Some (id, n) =>
          id :: match s with
                | [] => []
                | _ :: s' => markers (pred n) s'
                end
      | None =>
          match s with
          | [] => []
          | _ :: s' => markers 0 s'
          end
      end
  end.

(** Keep an element when no equal one came before it. *)
Fixpoint dedup_from (seen l : list jsstring) : list jsstring :=
  match l with
  | [] => []
  | x :: l' =>
      if mem x seen then dedup_from seen l'
      else x :: dedup_from (seen ++ [x]) l'
  end.

Definition dedup (l : list jsstring) : list jsstring := dedup_from [] l.

Definition citations (answer : jsstring) : list jsstring :=
  filter truthy (dedup (map trim (markers 0 answer))).

(** The answer of the worked example. *)
Definition paris : jsstring :=
  lit "Paris (Source: doc1, id:42) (Source: doc2, id:42) (Source: doc3, id:7)".

End Citation.

(* ===================================================================== *)
(** ** app.module.ts: the routes                                          *)
(* ===================================================================== *)

Module App.

Inductive Component := QueryComponent | DocumentListComponent.

(** [component: c] or [redirectTo: path]. *)
Inductive Action :=
| Show (c : Component)
| RedirectTo (path : jsstring).

Record Route := mkRoute {
  path : jsstring;
  action : Action
}.

Definition routes : list Route :=
  [ mkRoute (lit "") (Show QueryComponent);
    mkRoute (lit "chat") (Show QueryComponent);
    mkRoute (lit "documents") (Show DocumentListComponent);
    mkRoute (lit "**") (RedirectTo (lit "")) ].

(** A path cut at its slashes; empty pieces are no segments. *)
Fixpoint pieces (s : jsstring) : list jsstring :=
  match s with
  | [] => [[]]
  | c :: s' =>
      if N.eqb c 47 then [] :: pieces s'
      else match pieces s' with
           | piece :: more => (c :: piece) :: more
           | [] => [[c]]
           end
  end.

Definition segments (p : jsstring) : list jsstring :=
  filter truthy (pieces p).

Fixpoint segments_eqb (a b : list jsstring) : bool :=
  match a, b with
  | [], [] => true
  | x :: a', y :: b' => str_eqb x y && segments_eqb a' b'
  | _, _ => false
  end.

(** The router takes the first route of the table that matches.  A route
    without children matches an address when its path consumes all the
    segments of the address; the path [**] matches every address. *)
Definition matches (url : list jsstring) (r : Route) : bool :=
  str_eqb (path r) (lit "**") || segments_eqb url (segments (path r)).

(** Where the navigation to [url] ends: the address shown and the
    component rendered.  A redirect starts the matching again at its
    target; [redirects] bounds how many are followed. *)
Fixpoint navigate (redirects : nat) (url : list jsstring)
  : option (list jsstring * Component) :=
  match find (matches url) routes with
  | Some r =>
      match action r with
      | Show c => Some (url, c)
      | RedirectTo p =>
          match redirects with
          | O => None
          | S n => navigate n (segments p)
          end
      end
  | None => None
  end.

End App.

(* ===================================================================== *)
(** ** The pattern matcher on the two patterns of the query view          *)
(* ===================================================================== *)

Module MatcherFacts.
Import Service Query Citation.

Lemma strip_app (p r : jsstring) : strip p (p ++ r) = Some r.
Proof.
  induction p as [|c p IH]; simpl.
  - now destruct r.
  - now rewrite N.eqb_refl.
Qed.

Lemma strip_Some (p s r : jsstring) : strip p s = Some r -> s = p ++ r.
Proof.
  revert s; induction p as [|c p IH]; intros s Hs.
  - destruct s; inversion Hs; reflexivity.
  - destruct s as [|x s]; simpl in Hs; [discriminate|].
    destruct (N.eqb_spec x c) as [->|]; [|discriminate].
    simpl. f_equal. now apply IH.
Qed.

(** Whether [p] is a prefix is decided by the first [length p] units. *)
Lemma strip_None_app (p a b c : jsstring) :
  length p <= length a -> strip p (a ++ b) = None -> strip p (a ++ c) = None.
Proof.
  revert a; induction p as [|x p IH]; intros a Hlen Hs.
  - destruct (a ++ b); discriminate.
  - destruct a as [|y a]; simpl in Hlen; [lia|].
    simpl in *. destruct (N.eqb y x); [|reflexivity].
    apply IH; [lia|assumption].
Qed.

(** Literal code units at the head of a pattern. *)
Lemma match_here_chars (p : jsstring) (re : regex) (s : jsstring) :
  match_here (map Chr p ++ re) s
  = match strip p s with
    | Some t => option_map (prepend p) (match_here re t)
    | None => None
    end.
Proof.
  revert s; induction p as [|c p IH]; intros s; simpl.
  - destruct s; destruct (match_here re _) as [[m g r]|]; reflexivity.
  - destruct s as [|x s]; [reflexivity|].
    destruct (N.eqb_spec x c) as [->|]; [|reflexivity].
    rewrite IH. destruct (strip p s) as [t|]; [|reflexivity].
    destruct (match_here re t) as [[m g r]|]; reflexivity.
Qed.

(** A lazy run in front of a continuation that asks for the literal [p]
    stops at the first [p] of the line. *)
Lemma lazy_dots_upto (p : jsstring) (g : jsstring -> MatchResult)
      (k : jsstring -> option MatchResult) :
  (forall s, k s = option_map g (strip p s)) ->
  forall s,
    lazy_dots k s
    = match upto p s with
      | Some (u, t) => Some (u, g t)
      | None => None
      end.
Proof.
  intros Hk. induction s as [|x s IH]; simpl; rewrite Hk.
  - destruct (strip p []); reflexivity.
  - destruct (strip p (x :: s)); simpl; [reflexivity|].
    destruct (isLineTerminator x); [reflexivity|].
    rewrite IH. destruct (upto p s) as [[u t]|]; reflexivity.
Qed.

Lemma upto_None_tail (p : jsstring) (x : N) (s : jsstring) :
  upto p (x :: s) = None ->
  strip p (x :: s) = None /\ (isLineTerminator x = true \/ upto p s = None).
Proof.
  cbn [upto]. destruct (strip p (x :: s)); [discriminate|].
  intros Hs. split; [reflexivity|].
  destruct (isLineTerminator x); [now left|right].
  destruct (upto p s) as [[u r]|]; [discriminate|reflexivity].
Qed.

Lemma match_close (v : jsstring) :
  match_here (chars ")") v
  = option_map (fun r => mkMatch (lit ")") [] r) (strip (lit ")") v).
Proof.
  destruct v as [|x v]; [reflexivity|].
  cbn. destruct (N.eqb_spec x 41) as [->|]; reflexivity.
Qed.

(** [/id:(.*?)\)/] at the head of [t]. *)
Lemma match_id (t : jsstring) :
  match_here re_id t
  = match strip (lit "id:") t with
    | Some v =>
        match upto (lit ")") v with
        | Some (id, r) => Some (mkMatch (id_text id) [id] r)
        | None => None
        end
    | None => None
    end.
Proof.
  unfold re_id, chars. rewrite match_here_chars.
  destruct (strip (lit "id:") t) as [v|]; [|reflexivity].
  cbn [app match_here].
  rewrite (lazy_dots_upto (lit ")")
             (fun r => mkMatch (lit ")") [] r) _ match_close).
  destruct (upto (lit ")") v) as [[id r]|]; reflexivity.
Qed.

(** [id:] in front of a line keeps it unclosed. *)
Lemma upto_close_id (v : jsstring) :
  upto (lit ")") (lit "id:" ++ v) = None -> upto (lit ")") v = None.
Proof.
  intros H. cbn in H |- *.
  destruct (upto [41%N] v) as [[a b]|]; [discriminate|reflexivity].
Qed.

(** On a line without [')'] the tail pattern matches nowhere. *)
Lemma lazy_id_unclosed (t : jsstring) :
  upto (lit ")") t = None -> lazy_dots (match_here re_id) t = None.
Proof.
  induction t as [|x t IH]; intros H; cbn [lazy_dots]; rewrite match_id.
  - reflexivity.
  - destruct (strip (lit "id:") (x :: t)) as [v|] eqn:Hs.
    + apply strip_Some in Hs. rewrite Hs in H.
      rewrite (upto_close_id _ H).
      rewrite <- Hs in H. apply upto_None_tail in H as [_ [H|H]].
      * now rewrite H.
      * rewrite (IH H). now destruct (isLineTerminator x).
    + apply upto_None_tail in H as [_ [H|H]].
      * now rewrite H.
      * rewrite (IH H). now destruct (isLineTerminator x).
Qed.

(** [.*?id:(.*?)\)] at the head of [t]: the first [id:] of the line, then
    the first [')'] of the line. *)
Lemma lazy_id (t : jsstring) :
  lazy_dots (match_here re_id) t
  = match upto (lit "id:") t with
    | Some (u, v) =>
        match upto (lit ")") v with
        | Some (id, r) => Some (u, mkMatch (id_text id) [id] r)
        | None => None
        end
    | None => None
    end.
Proof.
  induction t as [|x t IH]; cbn [lazy_dots upto]; rewrite match_id.
  - reflexivity.
  - destruct (strip (lit "id:") (x :: t)) as [v|] eqn:Hs.
    + destruct (upto (lit ")") v) as [[id r]|] eqn:Hv; [reflexivity|].
      assert (Ht : upto (lit ")") t = None).
      { apply strip_Some in Hs. injection Hs as -> ->.
        change (upto (lit ")") (lit "d:" ++ v) = None).
        destruct (upto (lit ")") (lit "d:" ++ v)) as [[a b]|] eqn:E;
          [|reflexivity].
        cbn in E, Hv. rewrite Hv in E. discriminate. }
      rewrite (lazy_id_unclosed _ Ht).
      now destruct (isLineTerminator x).
    + destruct (isLineTerminator x); [reflexivity|].
      rewrite IH. destruct (upto (lit "id:") t) as [[u v]|]; [|reflexivity].
      destruct (upto (lit ")") v) as [[id r]|]; reflexivity.
Qed.

(** [/\(Source: .*?id:(.*?)\)/] at the head of [s]. *)
Lemma match_source (s : jsstring) :
  match_here re_source s
  = match strip (lit "(Source: ") s with
    | Some t =>
        match upto (lit "id:") t with
        | Some (u, v) =>
            match upto (lit ")") v with
            | Some (id, r) => Some (mkMatch (marker_text u id) [id] r)
            | None => None
            end
        | None => None
        end
    | None => None
    end.
Proof.
  change re_source with (map Chr (lit "(Source: ") ++ LazyDots false :: re_id).
  rewrite match_here_chars.
  destruct (strip (lit "(Source: ") s) as [t|]; [|reflexivity].
  cbn [match_here]. rewrite lazy_id.
  destruct (upto (lit "id:") t) as [[u v]|]; [|reflexivity].
  destruct (upto (lit ")") v) as [[id r]|]; reflexivity.
Qed.

Lemma upto_Some (p t u v : jsstring) :
  upto p t = Some (u, v) -> t = u ++ p ++ v.
Proof.
  revert u; induction t as [|x t IH]; intros u; cbn [upto].
  - destruct (strip p []) as [r|] eqn:Hs; [|discriminate].
    intros [= <- <-]. simpl. now apply strip_Some.
  - destruct (strip p (x :: t)) as [r|] eqn:Hs.
    + intros [= <- <-]. simpl. now apply strip_Some.
    + destruct (isLineTerminator x); [discriminate|].
      destruct (upto p t) as [[u' r]|]; [|discriminate].
      intros [= <- <-]. simpl. f_equal. now apply IH.
Qed.

Lemma upto_hit (p s r : jsstring) :
  strip p s = Some r -> upto p s = Some ([], r).
Proof. intros H. destruct s; cbn [upto]; now rewrite H. Qed.

(** What comes after the first [p] plays no part in finding it. *)
Lemma upto_resuffix (p t u v w : jsstring) :
  upto p t = Some (u, v) -> upto p (u ++ p ++ w) = Some (u, w).
Proof.
  revert u; induction t as [|x t IH]; intros u; cbn [upto].
  - destruct (strip p []) as [r|]; [|discriminate].
    intros [= <- <-]. exact (upto_hit _ _ _ (strip_app p w)).
  - destruct (strip p (x :: t)) as [r|] eqn:Hs.
    + intros [= <- <-]. exact (upto_hit _ _ _ (strip_app p w)).
    + destruct (isLineTerminator x) eqn:Hx; [discriminate|].
      destruct (upto p t) as [[u' r]|] eqn:Hu; [|discriminate].
      intros [= <- <-].
      pose proof (upto_Some _ _ _ _ Hu) as Ht. rewrite Ht in Hs.
      assert (Hn : strip p ((x :: u') ++ p ++ w) = None).
      { rewrite app_assoc. rewrite app_assoc in Hs.
        change (x :: (u' ++ p) ++ r) with ((x :: u' ++ p) ++ r) in Hs.
        apply (strip_None_app _ _ _ w) in Hs; [exact Hs|].
        simpl. rewrite length_app. lia. }
      simpl in Hn |- *. rewrite Hn, Hx, (IH _ eq_refl). reflexivity.
Qed.

Lemma exec_miss (x : N) (s : jsstring) :
  strip (lit "id:") (x :: s) = None -> exec re_id (x :: s) = exec re_id s.
Proof.
  intros Hs. cbn [exec]. now rewrite match_id, Hs.
Qed.

Lemma exec_hit (re : regex) (s : jsstring) (m : MatchResult) :
  match_here re s = Some m -> exec re s = Some m.
Proof. intros H. destruct s; cbn [exec]; now rewrite H. Qed.

Lemma exec_upto (u w : jsstring) (m : MatchResult) :
  upto (lit "id:") (u ++ lit "id:" ++ w) = Some (u, w) ->
  match_here re_id (lit "id:" ++ w) = Some m ->
  exec re_id (u ++ lit "id:" ++ w) = Some m.
Proof.
  intros Hu Hm. induction u as [|x u IH].
  - now apply exec_hit.
  - change ((x :: u) ++ lit "id:" ++ w) with (x :: u ++ lit "id:" ++ w) in *.
    cbn [upto] in Hu.
    destruct (strip (lit "id:") (x :: u ++ lit "id:" ++ w)) eqn:Hs;
      [discriminate|].
    rewrite (exec_miss _ _ Hs).
    destruct (isLineTerminator x); [discriminate|].
    destruct (upto (lit "id:") (u ++ lit "id:" ++ w)) as [[u' r]|];
      [|discriminate].
    injection Hu as -> ->. now apply IH.
Qed.

(** The second pattern, run on the text the first one matched, finds the
    identifier that text ends with. *)
Lemma exec_marker (t u v id r : jsstring) :
  upto (lit "id:") t = Some (u, v) ->
  upto (lit ")") v = Some (id, r) ->
  exec re_id (marker_text u id) = Some (mkMatch (id_text id) [id] []).
Proof.
  intros Hu Hv. unfold marker_text.
  cbn [lit list_ascii_of_string map app].
  do 9 (rewrite exec_miss by reflexivity).
  unfold id_text. apply exec_upto.
  - exact (upto_resuffix _ _ _ _ _ Hu).
  - rewrite match_id, strip_app.
    pose proof (upto_resuffix _ _ _ _ [] Hv) as Hv'.
    rewrite app_nil_r in Hv'. rewrite Hv'. reflexivity.
Qed.

(** [idMatch ? idMatch[1].trim() : ''] on the text of a marker. *)
Lemma id_of_marker (t u v id r : jsstring) :
  upto (lit "id:") t = Some (u, v) ->
  upto (lit ")") v = Some (id, r) ->
  id_of (marker_text u id) = trim id.
Proof.
  intros Hu Hv. unfold id_of, match_first.
  now rewrite (exec_marker _ _ _ _ _ Hu Hv).
Qed.

Lemma length_marker_text (u id : jsstring) :
  length (marker_text u id) = 9 + length u + 3 + length id + 1.
Proof.
  unfold marker_text, id_text. rewrite !length_app. simpl. lia.
Qed.

(** The identifiers the two patterns produce are the trimmed identifiers
    of the markers. *)
Lemma scan_markers (s : jsstring) :
  forall skip, map id_of (scan re_source skip s) = map trim (markers skip s).
Proof.
  induction s as [|x s IH]; intros [|k]; cbn [scan markers];
    try reflexivity; try apply IH.
  rewrite match_source. unfold marker.
  destruct (strip (lit "(Source: ") (x :: s)) as [t|]; [|apply IH].
  destruct (upto (lit "id:") t) as [[u v]|] eqn:Hu; [|apply IH].
  destruct (upto (lit ")") v) as [[id r]|] eqn:Hv; [|apply IH].
  cbn [matched map].
  rewrite (id_of_marker _ _ _ _ _ Hu Hv), length_marker_text, IH. reflexivity.
Qed.

(** [[...new Set(l)]] keeps the first of equal elements, in order. *)
Lemma new_Set_from (l acc : list jsstring) :
  fold_left Set_add l acc = acc ++ dedup_from acc l.
Proof.
  revert acc; induction l as [|x l IH]; intros acc; simpl.
  - now rewrite app_nil_r.
  - unfold Set_add at 2. destruct (mem x acc).
    + apply IH.
    + rewrite IH, <- app_assoc. reflexivity.
Qed.

Lemma new_Set_dedup (l : list jsstring) : new_Set l = dedup l.
Proof. unfold new_Set, dedup. now rewrite new_Set_from. Qed.

Lemma extract_sources_citations (answerText : jsstring) :
  extract_sources answerText = citations answerText.
Proof.
  unfold extract_sources, citations, match_all.
  rewrite <- scan_markers.
  destruct (scan re_source 0 answerText) as [|m ms]; [reflexivity|].
  now rewrite new_Set_dedup.
Qed.

End MatcherFacts.

(* ===================================================================== *)
(** ** Facts about strings and [trim]                                     *)
(* ===================================================================== *)

Module StringFacts.

Lemma trimStart_blank (s : jsstring) : blank s = true -> trimStart s = [].
Proof.
  induction s as [|c s IH]; simpl; [reflexivity|].
  destruct (isTrimmable c); simpl; [exact IH|discriminate].
Qed.

(** What [trimStart] leaves is empty or starts with a code unit that is
    not trimmable. *)
Lemma trimStart_head (s : jsstring) :
  blank (trimStart s) = true -> blank s = true.
Proof.
  induction s as [|c s IH]; simpl; [reflexivity|].
  destruct (isTrimmable c) eqn:Hc; simpl; [exact IH|].
  now rewrite Hc.
Qed.

Lemma blank_rev (s : jsstring) : blank (rev s) = blank s.
Proof.
  unfold blank. induction s as [|c s IH]; simpl; [reflexivity|].
  rewrite forallb_app, IH. simpl. rewrite andb_true_r. apply andb_comm.
Qed.

Lemma trimStart_nil (s : jsstring) : trimStart s = [] -> blank s = true.
Proof. intros H. apply trimStart_head. now rewrite H. Qed.

(** [trim] leaves nothing exactly of the strings made of white space and
    line terminators. *)
Lemma trim_nil_iff (s : jsstring) : trim s = [] <-> blank s = true.
Proof.
  unfold trim, trimEnd. split; intros H.
  - apply trimStart_head. rewrite <- blank_rev. apply trimStart_nil.
    destruct (trimStart (rev (trimStart s))) as [|c r]; [reflexivity|].
    simpl in H. now destruct (rev r).
  - now rewrite (trimStart_blank _ H).
Qed.

Lemma truthy_trim (s : jsstring) : truthy (trim s) = negb (blank s).
Proof.
  destruct (blank s) eqn:Hb.
  - apply trim_nil_iff in Hb. now rewrite Hb.
  - destruct (trim s) eqn:Ht; [|reflexivity].
    apply trim_nil_iff in Ht. congruence.
Qed.

Lemma truthy_nonblank (s : jsstring) : blank s = false -> truthy s = true.
Proof. now destruct s. Qed.

Lemma str_eqb_eq (a b : jsstring) : str_eqb a b = true <-> a = b.
Proof.
  revert b; induction a as [|x a IH]; intros [|y b]; simpl;
    try (split; [discriminate|discriminate]); [now split|].
  rewrite andb_true_iff, N.eqb_eq, IH. split.
  - now intros [-> ->].
  - now intros [= -> ->].
Qed.

End StringFacts.

(* ===================================================================== *)
(** ** What the markers and the identifiers kept are                      *)
(* ===================================================================== *)

Module CitationFacts.
Import Citation StringFacts MatcherFacts.

(** The text before the first [p] of a line holds no line terminator. *)
Lemma upto_line (p t u v : jsstring) :
  upto p t = Some (u, v) -> Forall (fun c => isLineTerminator c = false) u.
Proof.
  revert u; induction t as [|x t IH]; intros u; cbn [upto].
  - destruct (strip p []); [|discriminate]. intros [= <- <-]. constructor.
  - destruct (strip p (x :: t)); [intros [= <- <-]; constructor|].
    destruct (isLineTerminator x) eqn:Hx; [discriminate|].
    destruct (upto p t) as [[u' r]|]; [|discriminate].
    intros [= <- <-]. constructor; [exact Hx|]. now apply IH.
Qed.

(** An identifier holds no [')']. *)
Lemma upto_close_free (v id r : jsstring) :
  upto (lit ")") v = Some (id, r) -> ~ In 41%N id.
Proof.
  revert id; induction v as [|x v IH]; intros id; cbn [upto].
  - cbn. discriminate.
  - destruct (strip (lit ")") (x :: v)) eqn:Hs;
      [intros [= <- <-]; exact (fun H => H)|].
    destruct (isLineTerminator x); [discriminate|].
    destruct (upto (lit ")") v) as [[id' r']|]; [|discriminate].
    intros [= <- <-] [->|Hin].
    + cbn in Hs. now destruct v.
    + exact (IH _ eq_refl Hin).
Qed.

(** A marker found at the head of [s] is a prefix of [s] of the shape
    [(Source: u id:ID)], on one line, with no [')'] in the identifier. *)
Lemma marker_shape (s id : jsstring) (n : nat) :
  marker s = Some (id, n) ->
  exists u r,
    s = marker_text u id ++ r
    /\ n = length (marker_text u id)
    /\ Forall (fun c => isLineTerminator c = false) (u ++ id)
    /\ ~ In 41%N id.
Proof.
  unfold marker.
  destruct (strip (lit "(Source: ") s) as [t|] eqn:Hs; [|discriminate].
  destruct (upto (lit "id:") t) as [[u v]|] eqn:Hu; [|discriminate].
  destruct (upto (lit ")") v) as [[i r]|] eqn:Hv; [|discriminate].
  intros [= <- <-]. exists u, r.
  apply strip_Some in Hs. pose proof (upto_Some _ _ _ _ Hu) as Ht.
  pose proof (upto_Some _ _ _ _ Hv) as Hv'.
  repeat split.
  - subst s t v. unfold marker_text, id_text.
    now rewrite <- !app_assoc.
  - now rewrite length_marker_text.
  - apply Forall_app. split; [exact (upto_line _ _ _ _ Hu)|].
    exact (upto_line _ _ _ _ Hv).
  - exact (upto_close_free _ _ _ Hv).
Qed.

Lemma mem_In (x : jsstring) (l : list jsstring) : mem x l = true <-> In x l.
Proof.
  induction l as [|y l IH]; simpl; [now split|].
  rewrite orb_true_iff, str_eqb_eq, IH. split; intros [H|H]; auto.
Qed.

Lemma mem_snoc (x y : jsstring) (seen : list jsstring) :
  mem x (seen ++ [y]) = (mem x seen || str_eqb x y)%bool.
Proof.
  induction seen as [|z seen IH]; simpl; [apply orb_false_r|].
  now rewrite IH, orb_assoc.
Qed.

(** What [dedup_from] keeps: the elements not seen before. *)
Lemma dedup_from_In (l seen : list jsstring) (x : jsstring) :
  In x (dedup_from seen l) <-> In x l /\ mem x seen = false.
Proof.
  revert seen; induction l as [|y l IH]; intros seen; simpl.
  - tauto.
  - destruct (mem y seen) eqn:Hy.
    + rewrite IH. split.
      * intros [H1 H2]. auto.
      * intros [[->|H1] H2]; [congruence|auto].
    + simpl. rewrite IH, mem_snoc, orb_false_iff. split.
      * intros [->|[H1 [H2 _]]]; auto.
      * intros [[->|H1] H2]; [now left|].
        destruct (str_eqb x y) eqn:E; [|now right].
        apply str_eqb_eq in E. now left.
Qed.

(** No identifier is kept twice. *)
Lemma dedup_from_NoDup (l seen : list jsstring) : NoDup (dedup_from seen l).
Proof.
  revert seen; induction l as [|y l IH]; intros seen; simpl.
  - constructor.
  - destruct (mem y seen); [apply IH|].
    constructor; [|apply IH].
    rewrite dedup_from_In, mem_snoc. intros [_ H].
    apply orb_false_iff in H as [_ H].
    assert (E : str_eqb y y = true) by now apply str_eqb_eq.
    congruence.
Qed.

Lemma dedup_spec (l : list jsstring) :
  NoDup (dedup l) /\ forall x, In x (dedup l) <-> In x l.
Proof.
  split; [apply dedup_from_NoDup|].
  intros x. unfold dedup. rewrite dedup_from_In. simpl. tauto.
Qed.

End CitationFacts.

(* ===================================================================== *)
(** ** The query view                                                     *)
(* ===================================================================== *)

Module QueryProofs.
Import Service Query Citation StringFacts MatcherFacts.

(** The log and the state of a submission that passes the guard. *)
Lemma submitQuery_accepts (st : QueryComponent) :
  blank (query st) = false ->
  submitQuery st
  = (tt,
     mkQuery [] true [] (messages st ++ [mkMessage user (query st) None]),
     [Enter_submitQuery; Set_isLoading true; Set_errorMessage [];
      Push_message (mkMessage user (query st) None); Set_query [];
      Send (queryKnowledgeBase (query st))]).
Proof.
  intros Hb. unfold submitQuery, bind, emit, read.
  rewrite truthy_trim, Hb. reflexivity.
Qed.

(** The log and the state of a submission that the guard rejects. *)
Lemma submitQuery_rejects (st : QueryComponent) :
  blank (query st) = true ->
  submitQuery st
  = (tt,
     mkQuery (query st) (isLoading st) (lit "Please enter a query")
             (messages st),
     [Enter_submitQuery; Set_errorMessage (lit "Please enter a query")]).
Proof.
  intros Hb. unfold submitQuery, bind, emit, read.
  rewrite truthy_trim, Hb. reflexivity.
Qed.

Lemma has_answer_nonblank (a : jsstring) (docs : option (list jsstring)) :
  has_answer (Some (mkResponse (Some a) docs)) = negb (blank a).
Proof.
  simpl. rewrite truthy_trim. destruct (blank a) eqn:Hb; simpl.
  - apply andb_false_r.
  - now rewrite (truthy_nonblank _ Hb).
Qed.

(** The [next] callback appends the entry [render] describes and nothing
    else. *)
Lemma next_pushes (response : option QueryResponse) (st : QueryComponent) :
  messages (state_after (next response) st)
  = messages st
      ++ [mkMessage assistant (fst (render response))
                    (Some (snd (render response)))]
  /\ pushed (emitted (next response) st)
     = [mkMessage assistant (fst (render response))
                  (Some (snd (render response)))].
Proof.
  unfold next. destruct (render response) as [text srcs]. now split.
Qed.

Lemma render_blank (r : QueryResponse) :
  match answer r with Some a => blank a = true | None => True end ->
  render (Some r) = (fallback, []).
Proof.
  destruct r as [[a|] docs]; simpl answer; intros H; [|reflexivity].
  unfold render. now rewrite has_answer_nonblank, H.
Qed.

Lemma nonempty_trim (s : jsstring) : trim s <> [] -> blank s = false.
Proof.
  intros H. destruct (blank s) eqn:Hb; [|reflexivity].
  now apply trim_nil_iff in Hb.
Qed.

(** C1, as amended.  A submission whose trimmed query is not empty
    appends the user entry and then sends the request, so the entry is in
    the transcript before the call resolves.  When the call succeeds,
    exactly one assistant entry is appended.  When it fails, no entry is
    appended: the transcript, with the user entry, stays as it is and the
    fixed error message is set. *)
Theorem submission_transcript (st : QueryComponent) :
  trim (query st) <> [] ->
  let entry := mkMessage user (query st) None in
  let request := queryKnowledgeBase (query st) in
  pushed (emitted submitQuery st) = [entry]
  /\ sent (emitted submitQuery st) = [request]
  /\ before (Push_message entry) (Send request) (emitted submitQuery st)
  /\ messages (state_after submitQuery st) = messages st ++ [entry]
  /\ (forall response st', exists text srcs,
        pushed (emitted (resolve (Succeeds response)) st')
        = [mkMessage assistant text (Some srcs)]
        /\ messages (state_after (resolve (Succeeds response)) st')
           = messages st' ++ [mkMessage assistant text (Some srcs)])
  /\ (forall st',
        pushed (emitted (resolve Fails) st') = []
        /\ messages (state_after (resolve Fails) st') = messages st'
        /\ errorMessage (state_after (resolve Fails) st') = error_text).
Proof.
  intros Hq entry request. apply nonempty_trim in Hq.
  unfold emitted, state_after. rewrite (submitQuery_accepts _ Hq).
  repeat split.
  - exists [Enter_submitQuery; Set_isLoading true; Set_errorMessage []],
           [Set_query []], []. reflexivity.
  - intros response st'.
    destruct (next_pushes response st') as [Hm Hp].
    exists (fst (render response)), (snd (render response)).
    split; [exact Hp|exact Hm].
Qed.

Lemma submission_transcript_witness :
  trim (query (mkQuery (lit "hi") false [] [])) <> []
  /\ messages (state_after submitQuery (mkQuery (lit "hi") false [] []))
     = [mkMessage user (lit "hi") None].
Proof.
  assert (H : trim (query (mkQuery (lit "hi") false [] [])) <> [])
    by (vm_compute; discriminate).
  split; [exact H|].
  exact (proj1 (proj2 (proj2 (proj2
           (submission_transcript (mkQuery (lit "hi") false [] []) H))))).
Defined.

(** C1 as stated fails when the call fails: after the submission of
    "hi" and a failed call, no assistant entry has been appended; the
    transcript holds the user entry alone. *)
Lemma failure_appends_no_assistant_entry :
  let st := mkQuery (lit "hi") false [] [] in
  let st1 := state_after submitQuery st in
  trim (query st) <> []
  /\ length (entries_of assistant (pushed (emitted (resolve Fails) st1))) = 0
  /\ length (entries_of assistant (pushed (emitted (resolve Fails) st1))) <> 1
  /\ messages (state_after (resolve Fails) st1)
     = [mkMessage user (lit "hi") None].
Proof.
  cbv zeta. split; [vm_compute; discriminate|].
  split; [reflexivity|]. split; [vm_compute; discriminate|reflexivity].
Qed.

(** C2.  For a response with a non-blank answer and no [source_documents]
    the entry carries the answer and, as sources, the identifiers of the
    markers [(Source: ... id:<ID>)] of the answer, trimmed, the first of
    equal ones kept in order, the empty ones dropped; for the answer of the
    specification these are "42" and "7". *)
Theorem derived_sources_are_citations (a : jsstring) (st : QueryComponent) :
  (blank a = false ->
   messages (state_after (next (Some (mkResponse (Some a) None))) st)
   = messages st ++ [mkMessage assistant a (Some (citations a))])
  /\ messages (state_after (next (Some (mkResponse (Some paris) None))) st)
     = messages st
         ++ [mkMessage assistant paris (Some [lit "42"; lit "7"])].
Proof.
  assert (G : forall b, blank b = false ->
    messages (state_after (next (Some (mkResponse (Some b) None))) st)
    = messages st ++ [mkMessage assistant b (Some (citations b))]).
  { intros b Hb. rewrite (proj1 (next_pushes _ st)).
    unfold render. rewrite has_answer_nonblank, Hb. simpl.
    now rewrite extract_sources_citations. }
  split; [apply G|].
  rewrite (G paris) by reflexivity.
  replace (citations paris) with [lit "42"; lit "7"]
    by (vm_compute; reflexivity).
  reflexivity.
Qed.

Lemma derived_sources_are_citations_witness :
  blank paris = false
  /\ messages (state_after (next (Some (mkResponse (Some paris) None))) initial)
     = [mkMessage assistant paris (Some (citations paris))].
Proof.
  split; [reflexivity|].
  exact (proj1 (derived_sources_are_citations paris initial) eq_refl).
Defined.

(** C3.  For a response whose answer is absent, empty or made of white
    space only (a response without a body included), the entry carries
    the text "No relevant information found. Please rephrase or try
    another query." and no sources, whatever [source_documents] holds. *)
Theorem blank_answer_falls_back
    (response : option QueryResponse) (st : QueryComponent) :
  match response with
  | Some r =>
      match answer r with
      | Some text => blank text = true
      | None => True
      end
  | None => True
  end ->
  messages (state_after (next response) st)
  = messages st
      ++ [mkMessage assistant
            (lit "No relevant information found. Please rephrase or try another query.")
            (Some [])].
Proof.
  intros Ha. rewrite (proj1 (next_pushes _ st)).
  destruct response as [r|]; [|reflexivity].
  now rewrite (render_blank r Ha).
Qed.

Lemma blank_answer_falls_back_witness :
  blank [] = true
  /\ messages (state_after
                 (next (Some (mkResponse (Some [])
                                         (Some [lit "a"; lit "b"]))))
                 initial)
     = [mkMessage assistant
          (lit "No relevant information found. Please rephrase or try another query.")
          (Some [])].
Proof.
  split; [reflexivity|].
  exact (blank_answer_falls_back
           (Some (mkResponse (Some []) (Some [lit "a"; lit "b"])))
           initial eq_refl).
Defined.

(** C4.  For a response with a non-blank answer and a [source_documents]
    sequence, the entry carries the answer as it is and that sequence as
    it is; the markers of the answer play no part. *)
Theorem explicit_sources_win
    (a : jsstring) (docs : list jsstring) (st : QueryComponent) :
  blank a = false ->
  messages (state_after (next (Some (mkResponse (Some a) (Some docs)))) st)
  = messages st ++ [mkMessage assistant a (Some docs)].
Proof.
  intros Ha. rewrite (proj1 (next_pushes _ st)).
  unfold render. now rewrite has_answer_nonblank, Ha.
Qed.

Lemma explicit_sources_win_witness :
  blank paris = false
  /\ messages (state_after
                 (next (Some (mkResponse (Some paris) (Some [lit "x"]))))
                 initial)
     = [mkMessage assistant paris (Some [lit "x"])].
Proof.
  split; [reflexivity|].
  exact (explicit_sources_win paris [lit "x"] initial eq_refl).
Defined.

(** C5.  A submission whose query is empty once trimmed is rejected:
    the log holds the write of the validation message and nothing else,
    so no request is sent and no entry is appended; the transcript, the
    query and the loading flag are as before. *)
Theorem blank_query_rejected (st : QueryComponent) :
  trim (query st) = [] ->
  emitted submitQuery st
  = [Enter_submitQuery; Set_errorMessage (lit "Please enter a query")]
  /\ sent (emitted submitQuery st) = []
  /\ pushed (emitted submitQuery st) = []
  /\ state_after submitQuery st
     = mkQuery (query st) (isLoading st) (lit "Please enter a query")
               (messages st).
Proof.
  intros Hq. apply trim_nil_iff in Hq.
  unfold emitted, state_after. rewrite (submitQuery_rejects _ Hq).
  repeat split.
Qed.

Lemma blank_query_rejected_witness :
  trim (query (mkQuery (lit "  ") false [] [])) = []
  /\ sent (emitted submitQuery (mkQuery (lit "  ") false [] [])) = [].
Proof.
  split; [reflexivity|].
  exact (proj1 (proj2
           (blank_query_rejected (mkQuery (lit "  ") false [] []) eq_refl))).
Defined.

Lemma submitQuery_entered_once (st : QueryComponent) :
  submissions (emitted submitQuery st) = 1.
Proof.
  unfold emitted. destruct (blank (query st)) eqn:Hb.
  - now rewrite (submitQuery_rejects _ Hb).
  - now rewrite (submitQuery_accepts _ Hb).
Qed.

(** C9.  A keydown of Enter without Shift suppresses the default action
    and then runs [submitQuery], once; a keydown of Enter with Shift does
    nothing at all.  Whatever the event, [submitQuery] runs once when the
    key is Enter and Shift is not held, and does not run otherwise. *)
Theorem keydown_enter_submits_once (st : QueryComponent) :
  emitted (onKeydown (mkKey (lit "Enter") false)) st
  = PreventDefault :: emitted submitQuery st
  /\ submissions (emitted (onKeydown (mkKey (lit "Enter") false)) st) = 1
  /\ state_after (onKeydown (mkKey (lit "Enter") false)) st
     = state_after submitQuery st
  /\ emitted (onKeydown (mkKey (lit "Enter") true)) st = []
  /\ state_after (onKeydown (mkKey (lit "Enter") true)) st = st
  /\ (forall event,
        submissions (emitted (onKeydown event) st)
        = if str_eqb (key event) (lit "Enter") && negb (shiftKey event)
          then 1 else 0).
Proof.
  assert (E : emitted (onKeydown (mkKey (lit "Enter") false)) st
              = PreventDefault :: emitted submitQuery st).
  { unfold emitted, onKeydown, bind, emit. simpl.
    now destruct (submitQuery st) as [[u st'] log]. }
  repeat split.
  - exact E.
  - rewrite E. exact (submitQuery_entered_once st).
  - unfold state_after, onKeydown, bind, emit. simpl.
    now destruct (submitQuery st) as [[u st'] log].
  - intros event. unfold onKeydown.
    destruct (str_eqb (key event) (lit "Enter") && negb (shiftKey event));
      [|reflexivity].
    pose proof (submitQuery_entered_once st) as H1.
    unfold emitted, bind, emit in *.
    now destruct (submitQuery st) as [[u st'] log].
Qed.

(** C10.  In a submission whose trimmed query is not empty the request
    is the last thing logged; the writes logged before it leave the error
    message empty and the loading flag set, whatever they were, and so
    they are when the handler returns. *)
Theorem submission_clears_error_first (st : QueryComponent) :
  trim (query st) <> [] ->
  exists pre,
    emitted submitQuery st = pre ++ [Send (queryKnowledgeBase (query st))]
    /\ sent pre = []
    /\ errorMessage (replay pre st) = []
    /\ isLoading (replay pre st) = true
    /\ state_after submitQuery st = replay pre st.
Proof.
  intros Hq. apply nonempty_trim in Hq.
  unfold emitted, state_after. rewrite (submitQuery_accepts _ Hq).
  exists [Enter_submitQuery; Set_isLoading true; Set_errorMessage [];
          Push_message (mkMessage user (query st) None); Set_query []].
  repeat split.
Qed.

Lemma submission_clears_error_first_witness :
  trim (query (mkQuery (lit "hi") false (lit "Please enter a query") [])) <> []
  /\ errorMessage
       (state_after submitQuery
          (mkQuery (lit "hi") false (lit "Please enter a query") [])) = [].
Proof.
  assert (H : trim (query (mkQuery (lit "hi") false
                                   (lit "Please enter a query") [])) <> [])
    by (vm_compute; discriminate).
  split; [exact H|].
  destruct (submission_clears_error_first
              (mkQuery (lit "hi") false (lit "Please enter a query") []) H)
    as (pre & _ & _ & He & _ & Hs).
  rewrite Hs. exact He.
Defined.

End QueryProofs.

(* ===================================================================== *)
(** ** The download address                                               *)
(* ===================================================================== *)

Module ServiceProofs.
Import Service.

(** C8.  The download address of a file name is the base address, then
    "/download/", then the file name as it is, code unit for code unit;
    the component's [getDownloadUrl] gives what the service gives.  Both
    are functions on strings: they send nothing. *)
Theorem download_url_concatenates (filename : jsstring) :
  Service.getDownloadUrl filename
  = lit "http://localhost:8000" ++ lit "/download/" ++ filename
  /\ DocumentList.getDownloadUrl filename = Service.getDownloadUrl filename
  /\ skipn 31 (Service.getDownloadUrl filename) = filename.
Proof. repeat split. Qed.

End ServiceProofs.

(* ===================================================================== *)
(** ** The document list view                                             *)
(* ===================================================================== *)

Module DocumentListProofs.
Import Service DocumentList.

Lemma state_after_bind {St Ev A B} (m : M St Ev A) (k : A -> M St Ev B)
      (st : St) :
  state_after (bind m k) st
  = state_after (k (fst (fst (m st)))) (state_after m st).
Proof.
  unfold state_after, bind.
  destruct (m st) as [[a st1] e1]. simpl.
  now destruct (k a st1) as [[b st2] e2].
Qed.

Lemma emitted_bind {St Ev A B} (m : M St Ev A) (k : A -> M St Ev B)
      (st : St) :
  emitted (bind m k) st
  = emitted m st ++ emitted (k (fst (fst (m st)))) (state_after m st).
Proof.
  unfold emitted, state_after, bind.
  destruct (m st) as [[a st1] e1]. simpl.
  now destruct (k a st1) as [[b st2] e2].
Qed.

(** A tick on a closed pipeline: nothing is sent, nothing changes. *)
Lemma tick_stopped (w : World) :
  polling w = false -> tick w = (tt, w, []).
Proof.
  intros H. unfold tick, bind, read. rewrite H. reflexivity.
Qed.

(** Once the pipeline is closed it stays closed and nothing is sent,
    whatever happens. *)
Lemma handle_stopped (i : Input) (w : World) :
  polling w = false ->
  polling (state_after (handle i) w) = false
  /\ sent (emitted (handle i) w) = [].
Proof.
  intros H. destruct i as [|id res]; simpl.
  - unfold state_after, emitted. now rewrite (tick_stopped _ H).
  - unfold state_after, emitted, respond, bind, read.
    destruct (observer_of id w) as [[|]|]; destruct res; simpl; auto.
Qed.

Lemma sent_app (l1 l2 : list Event) : sent (l1 ++ l2) = sent l1 ++ sent l2.
Proof. unfold sent. now rewrite flat_map_app. Qed.

Lemma run_stopped (inputs : list Input) (w : World) :
  polling w = false ->
  polling (state_after (run inputs) w) = false
  /\ sent (emitted (run inputs) w) = [].
Proof.
  revert w; induction inputs as [|i rest IH]; intros w H; [now split|].
  cbn [run]. rewrite state_after_bind, emitted_bind, sent_app.
  destruct (handle_stopped i w H) as [Hp Hs].
  destruct (IH _ Hp) as [Hp' Hs'].
  now rewrite Hs, Hs'.
Qed.

(** A failed answer to the periodic fetch closes the pipeline. *)
Lemma refresh_failure_stops (id : nat) (w : World) :
  observer_of id w = Some Refresh ->
  polling (state_after (respond id Failed) w) = false.
Proof.
  intros H. unfold state_after, respond, bind, read. now rewrite H.
Qed.

(** A failed answer changes the documents of no view. *)
Lemma respond_failed_documents (id : nat) (w : World) :
  documents (this (state_after (respond id Failed) w)) = documents (this w).
Proof.
  unfold state_after, respond, bind, read.
  destruct (observer_of id w) as [[|]|]; reflexivity.
Qed.

Lemma tick_documents (w : World) :
  documents (this (state_after tick w)) = documents (this w).
Proof.
  unfold state_after, tick, bind, read.
  destruct (polling w); reflexivity.
Qed.

Lemma handle_documents (i : Input) (w : World) :
  is_success i = false ->
  documents (this (state_after (handle i) w)) = documents (this w).
Proof.
  destruct i as [|id [ds|]]; simpl; intros H.
  - apply tick_documents.
  - discriminate.
  - apply respond_failed_documents.
Qed.

Lemma run_documents (inputs : list Input) (w : World) :
  existsb is_success inputs = false ->
  documents (this (state_after (run inputs) w)) = documents (this w).
Proof.
  revert w; induction inputs as [|i rest IH]; intros w H; [reflexivity|].
  simpl in H. apply orb_false_iff in H as [Hi Hrest].
  cbn [run]. rewrite state_after_bind, (IH _ Hrest).
  now apply handle_documents.
Qed.

(** C6, on the code.  The view is started and the first periodic
    fetch is sent.  When it is answered, the next tick sends the next
    fetch.  When it fails, the pipeline is closed: whatever follows, ticks
    or answers, nothing is sent any more. *)
Theorem refresh_stops_after_failure
    (ls : Storage) (ds : list Document) (inputs : list Input) :
  let answered := state_after (run [Tick; Response 1 (Ok ds)]) (booted ls) in
  let failed := state_after (run [Tick; Response 1 Failed]) (booted ls) in
  sent (emitted (run [Tick]) (booted ls)) = [(1, getDocuments)]
  /\ sent (emitted (run [Tick]) answered) = [(2, getDocuments)]
  /\ polling failed = false
  /\ sent (emitted (run (Tick :: inputs)) failed) = [].
Proof.
  cbv zeta. repeat split.
  now apply run_stopped.
Qed.

(** C7, as amended.  A failed answer to a periodic fetch leaves the
    documents and the loading flag as they are.  A failed answer to the
    fetch of [loadDocuments] clears the loading flag and leaves the
    documents as they are; and as long as no fetch has been answered with
    success since the view was started, the documents are the empty
    sequence. *)
Theorem failed_fetch_keeps_documents (w : World) (id : nat) :
  (observer_of id w = Some Refresh ->
   this (state_after (respond id Failed) w) = this w)
  /\ (observer_of id w = Some Load ->
      documents (this (state_after (respond id Failed) w))
      = documents (this w)
      /\ isLoading (this (state_after (respond id Failed) w)) = false)
  /\ (forall ls inputs,
        existsb is_success inputs = false ->
        documents (this (state_after (run inputs) (booted ls))) = []).
Proof.
  split; [|split].
  - intros H. unfold state_after, respond, bind, read. now rewrite H.
  - intros H. unfold state_after, respond, bind, read. now rewrite H.
  - intros ls inputs H. now rewrite (run_documents _ _ H).
Qed.

Lemma failed_fetch_keeps_documents_witness :
  (observer_of 0 (booted []) = Some Load
   /\ isLoading (this (state_after (respond 0 Failed) (booted []))) = false)
  /\ (observer_of 1 (state_after tick (booted [])) = Some Refresh
      /\ this (state_after (respond 1 Failed) (state_after tick (booted [])))
         = this (state_after tick (booted [])))
  /\ (existsb is_success [Tick; Response 0 Failed] = false
      /\ documents
           (this (state_after (run [Tick; Response 0 Failed]) (booted [])))
         = []).
Proof.
  split; [|split].
  - split; [reflexivity|].
    exact (proj2 (proj1 (proj2
             (failed_fetch_keeps_documents (booted []) 0)) eq_refl)).
  - split; [reflexivity|].
    exact (proj1 (failed_fetch_keeps_documents
                    (state_after tick (booted [])) 1) eq_refl).
  - split; [reflexivity|].
    exact (proj2 (proj2 (failed_fetch_keeps_documents world0 0))
             [] [Tick; Response 0 Failed] eq_refl).
Defined.

(** C7 as stated fails when the fetch of [loadDocuments] fails late: the
    first periodic fetch has been answered with one document by then, and
    the failure leaves that document in place. *)
Lemma late_initial_failure_keeps_documents :
  let d := mkDocument (lit "a.pdf") (lit "docs/a.pdf") None in
  let w := state_after (run [Tick; Response 1 (Ok [d])]) (booted []) in
  observer_of 0 w = Some Load
  /\ documents (this (state_after (respond 0 Failed) w)) = [d]
  /\ documents (this (state_after (respond 0 Failed) w)) <> []
  /\ isLoading (this (state_after (respond 0 Failed) w)) = false.
Proof.
  cbv zeta. repeat split. discriminate.
Qed.

End DocumentListProofs.

(* ===================================================================== *)
(** ** More on the query view: rendering, sources, sequences of events    *)
(* ===================================================================== *)

Module QueryExtras.
Import Service Query Citation StringFacts MatcherFacts CitationFacts.
Import QueryProofs.

(** [formatContent], code unit by code unit. *)
Lemma formatContent_units (s : jsstring) :
  formatContent s
  = flat_map (fun c => if N.eqb c 10 then lit "<br>" else [c]) s.
Proof.
  unfold formatContent. induction s as [|x s IH]; [reflexivity|].
  cbn [replace_all match_here flat_map].
  destruct (N.eqb x 10); cbn in IH |- *; now rewrite IH.
Qed.

(** No line feed is left in what [formatContent] returns. *)
Lemma formatContent_no_line_feed (s : jsstring) :
  ~ In 10%N (formatContent s).
Proof.
  rewrite formatContent_units. induction s as [|x s IH]; simpl; [tauto|].
  rewrite in_app_iff. intros [H|H]; [|now apply IH].
  destruct (N.eqb_spec x 10) as [->|Hx].
  - cbn in H. repeat (destruct H as [H|H]; [discriminate|]). exact H.
  - destruct H as [H|[]]. congruence.
Qed.

(** X2.  [formatContent] works piece by piece: the rendering of a text
    is the rendering of its parts, put together. *)
Theorem formatContent_app (a b : jsstring) :
  formatContent (a ++ b) = formatContent a ++ formatContent b.
Proof. rewrite !formatContent_units. apply flat_map_app. Qed.

(** X3.  The rendering is 3 code units longer for each line feed. *)
Theorem formatContent_length (s : jsstring) :
  length (formatContent s) = length s + 3 * count_occ N.eq_dec s 10%N.
Proof.
  rewrite formatContent_units. induction s as [|x s IH]; [reflexivity|].
  cbn [flat_map]. rewrite length_app, IH. cbn [count_occ].
  destruct (N.eq_dec x 10) as [->|Hx].
  - simpl. lia.
  - apply N.eqb_neq in Hx. rewrite Hx. simpl. lia.
Qed.

(** X4.  A text comes back unchanged exactly when it holds no line feed:
    nothing but line feeds is rewritten, markup included. *)
Theorem formatContent_fixed_iff (s : jsstring) :
  formatContent s = s <-> ~ In 10%N s.
Proof.
  split.
  - intros H Hin. rewrite <- H in Hin.
    exact (formatContent_no_line_feed s Hin).
  - rewrite formatContent_units. induction s as [|x s IH]; [reflexivity|].
    intros Hn. cbn [flat_map].
    destruct (N.eqb_spec x 10) as [->|Hx]; [exfalso; apply Hn; now left|].
    simpl. f_equal. apply IH. intros Hin. apply Hn. now right.
Qed.

(** X1.  [formatContent] rewrites the content code unit by code unit:
    each line feed becomes the four code units of "<br>", every other
    code unit is kept where it is; so no line feed is left. *)
Theorem formatContent_line_feeds_become_br (s : jsstring) :
  formatContent s
  = flat_map (fun c => if N.eqb c 10 then lit "<br>" else [c]) s
  /\ ~ In 10%N (formatContent s).
Proof.
  split; [apply formatContent_units|apply formatContent_no_line_feed].
Qed.

Lemma formatContent_fixed_iff_witness :
  ~ In 10%N (lit "<b>bold</b>")
  /\ formatContent (lit "<b>bold</b>") = lit "<b>bold</b>".
Proof.
  assert (H : ~ In 10%N (lit "<b>bold</b>")).
  { cbn. intros H. repeat (destruct H as [H|H]; [discriminate|]). exact H. }
  split; [exact H|].
  exact (proj2 (formatContent_fixed_iff (lit "<b>bold</b>")) H).
Defined.

(** *** Sequences of events *)

Lemma pushed_app (l1 l2 : list Event) :
  pushed (l1 ++ l2) = pushed l1 ++ pushed l2.
Proof. unfold pushed. apply flat_map_app. Qed.

Lemma requests_app (l1 l2 : list Event) : sent (l1 ++ l2) = sent l1 ++ sent l2.
Proof. unfold sent. apply flat_map_app. Qed.

Lemma entries_of_app (r : Role) (l1 l2 : list ChatMessage) :
  entries_of r (l1 ++ l2) = entries_of r l1 ++ entries_of r l2.
Proof. unfold entries_of. apply filter_app. Qed.

Lemma replay_app (l1 l2 : list Event) (st : QueryComponent) :
  replay (l1 ++ l2) st = replay l2 (replay l1 st).
Proof. unfold replay. apply fold_left_app. Qed.

Lemma messages_replay (log : list Event) (st : QueryComponent) :
  messages (replay log st) = messages st ++ pushed log.
Proof.
  revert st; induction log as [|e log IH]; intros st.
  - simpl. now rewrite app_nil_r.
  - change (replay (e :: log) st) with (replay log (apply_event st e)).
    rewrite IH. destruct e; simpl; try reflexivity.
    now rewrite <- app_assoc.
Qed.

(** The cases of a handler run on [st]: what it returns is rewritten to
    the state and the log it produces. *)
Ltac handler_cases i st :=
  let Hb := fresh "Hb" in
  destruct i as [?text|?event| |[?response|]]; cbn [handle resolve];
  [ unfold set_query, write
  | unfold onKeydown;
    destruct (str_eqb (key event) (lit "Enter") && negb (shiftKey event));
    [ unfold bind, emit; destruct (blank (query st)) eqn:Hb;
      [ rewrite (submitQuery_rejects _ Hb)
      | rewrite (submitQuery_accepts _ Hb) ]
    | unfold ret ]
  | destruct (blank (query st)) eqn:Hb;
    [ rewrite (submitQuery_rejects _ Hb)
    | rewrite (submitQuery_accepts _ Hb) ]
  | unfold next; destruct (render response) as [?answerText ?srcs];
    unfold bind, push_message, set_isLoading, write
  | unfold error, bind, emit, set_errorMessage, set_isLoading, write ].

(** The log of a handler tells all it does to the state. *)
Lemma handle_replay (i : Input) (st : QueryComponent) :
  state_after (handle i) st = replay (emitted (handle i) st) st.
Proof.
  unfold state_after, emitted. handler_cases i st; try reflexivity.
  all: now destruct st.
Qed.

Lemma run_replay (inputs : list Input) (st : QueryComponent) :
  state_after (run inputs) st = replay (emitted (run inputs) st) st.
Proof.
  revert st; induction inputs as [|i rest IH]; intros st; [reflexivity|].
  cbn [run].
  rewrite DocumentListProofs.state_after_bind,
          DocumentListProofs.emitted_bind, replay_app, IH.
  now rewrite <- handle_replay.
Qed.

(** X5.  Whatever happens to the view, the transcript only grows: it is
    the transcript before, followed by the entries pushed meanwhile, in
    the order they were pushed.  No entry is removed or rewritten. *)
Theorem transcript_only_grows (inputs : list Input) (st : QueryComponent) :
  messages (state_after (run inputs) st)
  = messages st ++ pushed (emitted (run inputs) st).
Proof. now rewrite run_replay, messages_replay. Qed.

Lemma paired_app (l1 l2 : list Event) :
  paired l1 -> paired l2 -> paired (l1 ++ l2).
Proof.
  intros [H1 F1] [H2 F2]. split.
  - now rewrite requests_app, pushed_app, entries_of_app, !map_app, H1, H2.
  - rewrite requests_app. apply Forall_app. now split.
Qed.

Lemma paired_handle (i : Input) (st : QueryComponent) :
  paired (emitted (handle i) st).
Proof.
  unfold emitted. handler_cases i st; cbn; split; try reflexivity.
  all: repeat constructor.
  all: exists (query st); split; [reflexivity|].
  all: intros Ht; apply trim_nil_iff in Ht; congruence.
Qed.

(** X6.  Whatever happens to the view, the requests it sends are, one for
    one and in order, the user entries it pushes: each carries the text of
    its entry, goes to the query address, and its text is not blank. *)
Theorem requests_match_user_entries
    (inputs : list Input) (st : QueryComponent) :
  let log := emitted (run inputs) st in
  map query_of (sent log)
  = map (fun m => Some (content m)) (entries_of user (pushed log))
  /\ Forall (fun r => url_of r = apiUrl ++ lit "/query"
                      /\ exists q, query_of r = Some q /\ trim q <> [])
            (sent log).
Proof.
  cbv zeta. change (paired (emitted (run inputs) st)).
  revert st; induction inputs as [|i rest IH]; intros st.
  - split; [reflexivity|constructor].
  - cbn [run]. rewrite DocumentListProofs.emitted_bind.
    apply paired_app; [apply paired_handle|apply IH].
Qed.

Lemma assistants_handle (i : Input) (st : QueryComponent) :
  length (entries_of assistant (pushed (emitted (handle i) st)))
  = if is_success i then 1 else 0.
Proof. unfold emitted. handler_cases i st; reflexivity. Qed.

(** X7.  Whatever happens to the view, it pushes as many assistant
    entries as calls have ended with success: one for each, none for a
    call that failed, none for anything else. *)
Theorem one_assistant_entry_per_success
    (inputs : list Input) (st : QueryComponent) :
  length (entries_of assistant (pushed (emitted (run inputs) st)))
  = length (filter is_success inputs).
Proof.
  revert st; induction inputs as [|i rest IH]; intros st; [reflexivity|].
  cbn [run filter].
  rewrite DocumentListProofs.emitted_bind, pushed_app, entries_of_app,
          length_app, IH, assistants_handle.
  now destruct (is_success i).
Qed.

(** X8.  A second submission right after an accepted one (the input has
    been cleared) is rejected: one request is sent, not two, one user
    entry is pushed, and the view is left loading with the validation
    message shown. *)
Theorem second_submission_is_rejected (st : QueryComponent) :
  trim (query st) <> [] ->
  let twice := run [Submit; Submit] in
  sent (emitted twice st) = [queryKnowledgeBase (query st)]
  /\ state_after twice st
     = mkQuery [] true (lit "Please enter a query")
               (messages st ++ [mkMessage user (query st) None]).
Proof.
  intros Hq. apply nonempty_trim in Hq. cbv zeta.
  unfold emitted, state_after. cbn [run handle]. unfold bind at 1 3.
  rewrite (submitQuery_accepts _ Hq). unfold bind, ret.
  rewrite submitQuery_rejects by reflexivity. now split.
Qed.

Lemma second_submission_is_rejected_witness :
  trim (query (mkQuery (lit "hi") false [] [])) <> []
  /\ sent (emitted (run [Submit; Submit]) (mkQuery (lit "hi") false [] []))
     = [queryKnowledgeBase (lit "hi")].
Proof.
  assert (H : trim (query (mkQuery (lit "hi") false [] [])) <> [])
    by (vm_compute; discriminate).
  split; [exact H|].
  exact (proj1 (second_submission_is_rejected
                  (mkQuery (lit "hi") false [] []) H)).
Defined.

(** X9.  The text of an assistant entry is never blank, whatever the
    server answers: it is a non-blank answer or the fallback text. *)
Theorem assistant_text_never_blank (response : option QueryResponse) :
  blank (fst (render response)) = false.
Proof.
  destruct response as [[[a|] docs]|]; try reflexivity.
  unfold render. rewrite has_answer_nonblank.
  destruct (blank a) eqn:Hb; [reflexivity|exact Hb].
Qed.

(** *** The sources read off an answer *)

Lemma trimStart_snoc (l : jsstring) (c : N) :
  trimStart (l ++ [c])
  = match trimStart l with
    | [] => if isTrimmable c then [] else [c]
    | r => r ++ [c]
    end.
Proof.
  induction l as [|x l IH]; [reflexivity|].
  simpl. destruct (isTrimmable x); [exact IH|reflexivity].
Qed.

Lemma trimEnd_cons (c : N) (u : jsstring) :
  trimEnd (c :: u)
  = match trimEnd u with
    | [] => if isTrimmable c then [] else [c]
    | r => c :: r
    end.
Proof.
  unfold trimEnd. simpl rev. rewrite trimStart_snoc.
  destruct (trimStart (rev u)) as [|y r].
  - simpl. now destruct (isTrimmable c).
  - rewrite rev_app_distr. change (rev [c]) with [c].
    destruct (rev (y :: r)) eqn:E; [|reflexivity].
    apply (f_equal (@length N)) in E. rewrite length_rev in E. discriminate.
Qed.

Lemma trimEnd_idem (u : jsstring) : trimEnd (trimEnd u) = trimEnd u.
Proof.
  induction u as [|c u IH]; [reflexivity|].
  rewrite trimEnd_cons. destruct (trimEnd u) as [|y r] eqn:E.
  - destruct (isTrimmable c) eqn:Hc; [reflexivity|].
    rewrite trimEnd_cons. change (trimEnd []) with (@nil N). now rewrite Hc.
  - rewrite trimEnd_cons, IH. reflexivity.
Qed.

(** Trimming the end does not bring white space to the head. *)
Lemma trimStart_trimEnd (s : jsstring) :
  trimStart (trimEnd (trimStart s)) = trimEnd (trimStart s).
Proof.
  induction s as [|c s IH]; [reflexivity|].
  simpl. destruct (isTrimmable c) eqn:Hc; [exact IH|].
  rewrite trimEnd_cons.
  destruct (trimEnd s) as [|y r]; rewrite ?Hc; cbn [trimStart];
    now rewrite Hc.
Qed.

Lemma trim_idem (s : jsstring) : trim (trim s) = trim s.
Proof.
  unfold trim. now rewrite trimStart_trimEnd, trimEnd_idem.
Qed.

(** X10.  The sources read off an answer hold no identifier twice and no
    empty identifier, and each of them is trimmed already. *)
Theorem extracted_sources_are_clean (answerText : jsstring) :
  NoDup (extract_sources answerText)
  /\ Forall (fun id => id <> [] /\ trim id = id)
            (extract_sources answerText).
Proof.
  rewrite extract_sources_citations. unfold citations. split.
  - apply NoDup_filter, dedup_spec.
  - apply Forall_forall. intros id Hin.
    apply filter_In in Hin as [Hin Ht]. split.
    + intros ->. discriminate.
    + apply (proj1 (proj2 (dedup_spec _) id)) in Hin.
      apply in_map_iff in Hin as [raw [<- _]].
      apply trim_idem.
Qed.

Lemma scan_without_paren (s : jsstring) :
  ~ In 40%N s -> forall skip, scan re_source skip s = [].
Proof.
  induction s as [|x s IH]; intros Hn [|k]; cbn [scan];
    try reflexivity; try (apply IH; intros H; apply Hn; now right).
  rewrite match_source.
  assert (Hx : N.eqb x 40 = false).
  { apply N.eqb_neq. intros ->. apply Hn. now left. }
  cbn [lit list_ascii_of_string map strip N_of_ascii].
  cbn. rewrite Hx. apply IH. intros H. apply Hn. now right.
Qed.

(** X11.  An answer without an opening parenthesis has no sources: the
    entry gets the empty list. *)
Theorem no_parenthesis_no_sources (answerText : jsstring) :
  ~ In 40%N answerText -> extract_sources answerText = [].
Proof.
  intros Hn. unfold extract_sources, match_all.
  now rewrite (scan_without_paren _ Hn).
Qed.

Lemma no_parenthesis_no_sources_witness :
  ~ In 40%N (lit "Paris") /\ extract_sources (lit "Paris") = [].
Proof.
  assert (H : ~ In 40%N (lit "Paris")).
  { cbn. intros H. repeat (destruct H as [H|H]; [discriminate|]). exact H. }
  split; [exact H|].
  exact (no_parenthesis_no_sources (lit "Paris") H).
Defined.

(** X23.  The loading flag is no count of open calls: a submission is
    accepted while another one is loading, and the first call to end,
    whichever and however, clears the flag. *)
Theorem loading_flag_is_no_count
    (st : QueryComponent) (q2 : jsstring) (o : Outcome) :
  trim (query st) <> [] ->
  trim q2 <> [] ->
  let h := run [Submit; Edit q2; Submit; Resolved o] in
  sent (emitted h st) = [queryKnowledgeBase (query st); queryKnowledgeBase q2]
  /\ isLoading (state_after h st) = false.
Proof.
  intros H1 H2. apply nonempty_trim in H1. apply nonempty_trim in H2.
  cbv zeta. unfold emitted, state_after. cbn [run handle].
  unfold bind, set_query, write, ret.
  rewrite (submitQuery_accepts _ H1). cbv beta iota zeta.
  rewrite submitQuery_accepts by exact H2. cbv beta iota zeta.
  destruct o as [response|]; cbn [resolve].
  - unfold next. destruct (render response) as [text srcs].
    split; reflexivity.
  - split; reflexivity.
Qed.

Lemma loading_flag_is_no_count_witness :
  (trim (query (mkQuery (lit "a") false [] [])) <> []
   /\ trim (lit "b") <> [])
  /\ isLoading
       (state_after (run [Submit; Edit (lit "b"); Submit; Resolved Fails])
                    (mkQuery (lit "a") false [] [])) = false.
Proof.
  assert (H1 : trim (query (mkQuery (lit "a") false [] [])) <> [])
    by (vm_compute; discriminate).
  assert (H2 : trim (lit "b") <> []) by (vm_compute; discriminate).
  split; [split; assumption|].
  exact (proj2 (loading_flag_is_no_count
                  (mkQuery (lit "a") false [] []) (lit "b") Fails H1 H2)).
Defined.

End QueryExtras.

(* ===================================================================== *)
(** ** More on the service and on the routes                              *)
(* ===================================================================== *)

Module ServiceExtras.
Import Service.

(** X12.  Two file names with the same download address are the same
    file name. *)
Theorem download_url_injective (f g : jsstring) :
  Service.getDownloadUrl f = Service.getDownloadUrl g -> f = g.
Proof.
  unfold Service.getDownloadUrl. intros H.
  apply app_inv_head in H. now apply app_inv_head in H.
Qed.

Lemma download_url_injective_witness :
  Service.getDownloadUrl (lit "a.pdf") = Service.getDownloadUrl (lit "a.pdf")
  /\ lit "a.pdf" = lit "a.pdf".
Proof.
  split; [reflexivity|].
  exact (download_url_injective (lit "a.pdf") (lit "a.pdf") eq_refl).
Defined.

End ServiceExtras.

Module AppProofs.
Import App StringFacts.

(** X13.  Every address ends on a view.  [/documents] shows the document
    list; [/] and [/chat] show the query view; every other address is
    sent to [/], which shows the query view. *)
Theorem navigation_ends_on_a_view (n : nat) (url : list jsstring) :
  navigate (S n) url
  = Some (if segments_eqb url [lit "documents"]
          then (url, DocumentListComponent)
          else if segments_eqb url [] || segments_eqb url [lit "chat"]
               then (url, QueryComponent)
               else ([], QueryComponent)).
Proof.
  destruct url as [|seg [|seg2 more]]; [reflexivity| |].
  - cbn. rewrite !andb_true_r.
    destruct (str_eqb seg (lit "chat")) eqn:Hc;
      destruct (str_eqb seg (lit "documents")) eqn:Hd;
      cbn in Hc, Hd |- *; rewrite ?Hc, ?Hd; try reflexivity.
    + apply str_eqb_eq in Hc, Hd. congruence.
    + now destruct n.
  - cbn. rewrite !andb_false_r. now destruct n.
Qed.

End AppProofs.

(* ===================================================================== *)
(** ** More on the document list view                                     *)
(* ===================================================================== *)

Module DocumentListExtras.
Import Service DocumentList StringFacts DocumentListProofs.

Lemma observer_of_In (id : nat) (o : Subscriber) (w : World) :
  observer_of id w = Some o -> In (id, o) (in_flight w).
Proof.
  unfold observer_of. destruct (find _ (in_flight w)) as [[i o']|] eqn:E;
    [|discriminate].
  intros [= <-]. apply find_some in E as [Hin Hid].
  apply Nat.eqb_eq in Hid. simpl in Hid. now subst i.
Qed.

Lemma find_absent (id : nat) (l : list (nat * Subscriber)) :
  (forall p, In p l -> fst p <> id) ->
  find (fun p => Nat.eqb (fst p) id) l = None.
Proof.
  induction l as [|p l IH]; intros H; [reflexivity|].
  simpl. destruct (Nat.eqb_spec (fst p) id) as [E|_].
  - exfalso. exact (H p (or_introl eq_refl) E).
  - apply IH. intros q Hq. apply H. now right.
Qed.

Lemma observer_of_None (id : nat) (o : Subscriber) (w : World) :
  observer_of id w = None -> ~ In (id, o) (in_flight w).
Proof.
  unfold observer_of. destruct (find _ (in_flight w)) eqn:E; [discriminate|].
  intros _ Hin. apply (find_none _ _ E) in Hin.
  simpl in Hin. now rewrite Nat.eqb_refl in Hin.
Qed.

Lemma started_booted (ls : Storage) : started (booted ls).
Proof.
  unfold started. cbn. repeat split; auto.
  constructor; [|constructor]. simpl. split; [lia|tauto].
Qed.

Lemma started_tick (w : World) : started w -> started (state_after tick w).
Proof.
  intros Hw. pose proof Hw as (Hn & Hf & Hl).
  unfold state_after, tick, bind, read.
  destruct (polling w); [|exact Hw].
  unfold started. cbn. rewrite Forall_forall in Hf. repeat split.
  - lia.
  - apply Forall_app. split.
    + apply Forall_forall. intros p Hp. apply filter_In in Hp as [Hp _].
      destruct (Hf p Hp) as [Hlt Hiff]. split; [lia|exact Hiff].
    + repeat constructor; simpl; [discriminate|lia].
  - intros H. apply in_or_app. left. apply filter_In. split; [|reflexivity].
    now apply Hl.
  - intros H. apply in_app_or in H as [H|[[=]|[]]].
    apply filter_In in H as [H _]. now apply Hl.
Qed.

Lemma started_respond (id : nat) (res : Result) (w : World) :
  started w -> started (state_after (respond id res) w).
Proof.
  intros Hw. pose proof Hw as (Hn & Hf & Hl).
  unfold state_after, respond, bind, read.
  rewrite Forall_forall in Hf.
  assert (Hkeep : forall q,
    Forall (fun p => fst p < next_id w /\ (is_load p = true <-> fst p = 0))
           (filter q (in_flight w))).
  { intros q. apply Forall_forall. intros p Hp.
    apply filter_In in Hp as [Hp _]. now apply Hf. }
  destruct (observer_of id w) as [[|]|] eqn:Ho;
    [| |exact Hw].
  - apply observer_of_In in Ho.
    assert (id = 0) as -> by (now apply (Hf _ Ho)).
    destruct res; unfold started; cbn;
      (repeat split; [exact Hn|apply Hkeep|discriminate|]).
    all: intros H; apply filter_In in H as [_ H]; discriminate.
  - apply observer_of_In in Ho.
    assert (Hid : id <> 0).
    { intros ->. destruct (Hf _ Ho) as [_ [_ H]]. now specialize (H eq_refl). }
    assert (Hin : In (0, Load) (filter (fun p => negb (Nat.eqb (fst p) id))
                                      (in_flight w))
                  <-> In (0, Load) (in_flight w)).
    { rewrite filter_In. destruct id as [|k]; [congruence|]. simpl. tauto. }
    destruct res; unfold started; cbn;
      (repeat split; [exact Hn|apply Hkeep| |]).
    all: rewrite Hin; apply Hl.
Qed.

Lemma started_run (inputs : list Input) (w : World) :
  started w -> started (state_after (run inputs) w).
Proof.
  revert w; induction inputs as [|i rest IH]; intros w Hw; [exact Hw|].
  cbn [run]. rewrite state_after_bind. apply IH.
  destruct i; [now apply started_tick|now apply started_respond].
Qed.

Lemma loading_step (i : Input) (w : World) :
  started w ->
  isLoading (this (state_after (handle i) w))
  = isLoading (this w) && negb (answers_initial i).
Proof.
  intros (Hn & Hf & Hl). rewrite Forall_forall in Hf.
  destruct i as [|id res]; cbn [handle answers_initial].
  - unfold state_after, tick, bind, read.
    destruct (polling w); cbn; now rewrite andb_true_r.
  - unfold state_after, respond, bind, read.
    destruct (observer_of id w) as [[|]|] eqn:Ho.
    + apply observer_of_In in Ho.
      assert (id = 0) as -> by (now apply (Hf _ Ho)).
      destruct res; cbn; now rewrite andb_false_r.
    + apply observer_of_In in Ho.
      assert (Hid : id <> 0).
      { intros ->. destruct (Hf _ Ho) as [_ [_ H]].
        now specialize (H eq_refl). }
      destruct id as [|k]; [congruence|].
      destruct res; cbn; now rewrite andb_true_r.
    + cbn. destruct id as [|k]; [|now rewrite andb_true_r].
      rewrite andb_false_r. destruct (isLoading (this w)); [|reflexivity].
      exfalso. exact (observer_of_None _ Load _ Ho (proj1 Hl eq_refl)).
Qed.

(** X14.  From the start of the view on, the loading flag is set exactly
    as long as the request of [loadDocuments] has had no answer: the first
    answer to it, good or bad, clears the flag, and neither a tick nor the
    answer to a periodic request ever sets or clears it. *)
Theorem loading_until_initial_answer (ls : Storage) (inputs : list Input) :
  isLoading (this (state_after (run inputs) (booted ls)))
  = negb (existsb answers_initial inputs).
Proof.
  change (negb (existsb answers_initial inputs))
    with (isLoading (this (booted ls))
          && negb (existsb answers_initial inputs)).
  generalize (started_booted ls). generalize (booted ls).
  induction inputs as [|i rest IH]; intros w Hw.
  - simpl. now rewrite andb_true_r.
  - cbn [run existsb]. rewrite state_after_bind.
    rewrite IH by (destruct i; [now apply started_tick
                               |now apply started_respond]).
    rewrite (loading_step i _ Hw), negb_orb. symmetry. apply andb_assoc.
Qed.

Lemma filter_opposite {A} (f : A -> bool) (l : list A) :
  filter (fun x => negb (f x)) (filter f l) = [].
Proof.
  induction l as [|x l IH]; [reflexivity|].
  simpl. destruct (f x) eqn:E; [|exact IH]. simpl. now rewrite E.
Qed.

Lemma filter_filter_length {A} (f g : A -> bool) (l : list A) :
  length (filter f (filter g l)) <= length (filter f l).
Proof.
  induction l as [|x l IH]; [reflexivity|].
  simpl. destruct (g x); simpl; destruct (f x); simpl; lia.
Qed.

Lemma refreshes_step (i : Input) (w : World) :
  length (refreshes w) <= 1 ->
  length (refreshes (state_after (handle i) w)) <= 1.
Proof.
  intros Hw. unfold refreshes in *. destruct i as [|id res]; cbn [handle].
  - unfold state_after, tick, bind, read.
    destruct (polling w); [|exact Hw].
    cbn. rewrite filter_app, filter_opposite. simpl. lia.
  - unfold state_after, respond, bind, read.
    destruct (observer_of id w) as [[|]|]; [| |exact Hw];
      destruct res; cbn;
      (etransitivity; [apply filter_filter_length|exact Hw]).
Qed.

(** X15.  From the start of the view on, at most one periodic request is
    in flight at any time: a tick drops the one before it. *)
Theorem one_refresh_in_flight (ls : Storage) (inputs : list Input) :
  length (refreshes (state_after (run inputs) (booted ls))) <= 1.
Proof.
  assert (H : length (refreshes (booted ls)) <= 1) by (cbn; lia).
  revert H. generalize (booted ls).
  induction inputs as [|i rest IH]; intros w Hw; [exact Hw|].
  cbn [run]. rewrite state_after_bind. apply IH. now apply refreshes_step.
Qed.

(** X16.  The answer to a periodic request that a later tick has replaced
    is dropped: it changes nothing and logs nothing. *)
Theorem replaced_refresh_is_dropped
    (ls : Storage) (inputs : list Input) (res : Result) :
  let w := state_after (run inputs) (booted ls) in
  polling w = true ->
  respond (next_id w) res (state_after (run [Tick; Tick]) w)
  = (tt, state_after (run [Tick; Tick]) w, []).
Proof.
  intros w Hp.
  assert (Hw : started w) by apply started_run, started_booted.
  destruct Hw as (_ & Hf & _). rewrite Forall_forall in Hf.
  assert (E : state_after (run [Tick; Tick]) w
              = mkWorld (this w) (S (S (next_id w)))
                        (filter is_load (filter is_load (in_flight w))
                           ++ [(S (next_id w), Refresh)])
                        true).
  { unfold state_after. cbn [run handle]. unfold tick, bind, read, ret.
    rewrite Hp. cbn. rewrite Hp. cbn. rewrite filter_app. cbn.
    now rewrite app_nil_r. }
  rewrite E. unfold respond, bind, read, observer_of. cbn [in_flight].
  rewrite find_absent; [reflexivity|].
  intros p Hin. apply in_app_or in Hin as [Hin|[<-|[]]].
  - apply filter_In in Hin as [Hin _]. apply filter_In in Hin as [Hin _].
    destruct (Hf p Hin) as [Hlt _]. lia.
  - simpl. lia.
Qed.

Lemma replaced_refresh_is_dropped_witness :
  polling (state_after (run []) (booted [])) = true
  /\ respond 1 Failed (state_after (run [Tick; Tick]) (booted []))
     = (tt, state_after (run [Tick; Tick]) (booted []), []).
Proof.
  split; [reflexivity|].
  exact (replaced_refresh_is_dropped [] [] Failed eq_refl).
Defined.

Lemma snapshot_step (i : Input) (w : World) :
  localStorageItems (this (state_after (handle i) w))
  = localStorageItems (this w).
Proof.
  destruct i as [|id res]; cbn [handle].
  - unfold state_after, tick, bind, read. now destruct (polling w).
  - unfold state_after, respond, bind, read.
    destruct (observer_of id w) as [[|]|]; try reflexivity;
      now destruct res.
Qed.

(** X17.  The entries read from the local storage are a snapshot: no
    tick and no answer ever changes them. *)
Theorem storage_snapshot_is_kept (inputs : list Input) (w : World) :
  localStorageItems (this (state_after (run inputs) w))
  = localStorageItems (this w).
Proof.
  revert w; induction inputs as [|i rest IH]; intros w; [reflexivity|].
  cbn [run]. now rewrite state_after_bind, IH, snapshot_step.
Qed.

Lemma requests_step (i : Input) (w : World) :
  Forall (fun p => snd p = getDocuments) (sent (emitted (handle i) w))
  /\ length (sent (emitted (handle i) w)) <= if is_tick i then 1 else 0.
Proof.
  destruct i as [|id res]; cbn [handle is_tick].
  - unfold emitted, tick, bind, read.
    destruct (polling w); cbn; split; repeat constructor.
  - unfold emitted, respond, bind, read.
    destruct (observer_of id w) as [[|]|]; try destruct res; cbn;
      split; repeat constructor.
Qed.

(** X18.  The view sends nothing but GET requests to the base address
    followed by "/documents", at most one for each tick; an answer, good
    or bad, never makes it send a request. *)
Theorem one_fetch_per_tick_at_most (inputs : list Input) (w : World) :
  Forall (fun p => snd p = GET (apiUrl ++ lit "/documents"))
         (sent (emitted (run inputs) w))
  /\ length (sent (emitted (run inputs) w))
     <= length (filter is_tick inputs).
Proof.
  revert w; induction inputs as [|i rest IH]; intros w.
  - split; [constructor|reflexivity].
  - cbn [run filter]. rewrite emitted_bind, sent_app, length_app.
    destruct (requests_step i w) as [F1 L1].
    destruct (IH (state_after (handle i) w)) as [F2 L2].
    split; [apply Forall_app; split; [exact F1|exact F2]|].
    destruct (is_tick i); simpl in *; lia.
Qed.

(** X19.  Once a periodic request has failed, the view sends nothing any
    more, whatever follows. *)
Theorem nothing_sent_after_refresh_failure
    (w : World) (id : nat) (inputs : list Input) :
  observer_of id w = Some Refresh ->
  sent (emitted (run inputs) (state_after (respond id Failed) w)) = [].
Proof.
  intros H. apply run_stopped. now apply refresh_failure_stops.
Qed.

Lemma nothing_sent_after_refresh_failure_witness :
  observer_of 1 (state_after tick (booted [])) = Some Refresh
  /\ sent (emitted (run [Tick; Tick])
             (state_after (respond 1 Failed) (state_after tick (booted []))))
     = [].
Proof.
  split; [reflexivity|].
  exact (nothing_sent_after_refresh_failure
           (state_after tick (booted [])) 1 [Tick; Tick] eq_refl).
Defined.

(** X20.  The answer to the request of [loadDocuments], good or bad,
    leaves the periodic refresh as it is: when it is running, the next
    tick sends a request. *)
Theorem initial_answer_keeps_polling
    (w : World) (id : nat) (res : Result) :
  observer_of id w = Some Load ->
  polling w = true ->
  polling (state_after (respond id res) w) = true
  /\ sent (emitted tick (state_after (respond id res) w))
     = [(next_id w, getDocuments)].
Proof.
  intros Ho Hp. unfold state_after, emitted, respond, tick, bind, read.
  rewrite Ho. destruct res; cbn; rewrite Hp; now split.
Qed.

Lemma initial_answer_keeps_polling_witness :
  (observer_of 0 (booted []) = Some Load /\ polling (booted []) = true)
  /\ sent (emitted tick (state_after (respond 0 Failed) (booted [])))
     = [(1, getDocuments)].
Proof.
  split; [split; reflexivity|].
  exact (proj2 (initial_answer_keeps_polling (booted []) 0 Failed
                  eq_refl eq_refl)).
Defined.

Lemma getItem_found (ls : Storage) (k v : jsstring) :
  NoDup (map fst ls) -> In (k, v) ls -> getItem ls k = Some v.
Proof.
  unfold getItem. induction ls as [|[k0 v0] ls IH]; intros Hnd Hin; [easy|].
  inversion Hnd as [|? ? Hk0 Hnd']; subst. simpl.
  destruct (str_eqb k0 k) eqn:E.
  - apply str_eqb_eq in E. subst k0. destruct Hin as [[= ->]|Hin];
      [reflexivity|].
    exfalso. apply Hk0. now apply (in_map fst) in Hin.
  - destruct Hin as [[= -> ->]|Hin].
    + assert (T : str_eqb k k = true) by now apply str_eqb_eq. congruence.
    + now apply IH.
Qed.

(** X21.  The keys of a local storage being distinct, the entries the
    view reads from it are its entries, in order, as they are, those with
    the empty key left out. *)
Theorem storage_items_are_the_entries (ls : Storage) (w : World) :
  NoDup (map fst ls) ->
  localStorageItems (this (state_after (loadLocalStorageItems ls) w))
  = filter (fun kv => truthy (fst kv)) ls.
Proof.
  intros Hnd. cbn.
  assert (G : forall l, incl l ls ->
    flat_map
      (fun kv =>
         if truthy (fst kv)
         then [(fst kv, match getItem ls (fst kv) with
                        | Some v => if truthy v then v else []
                        | None => []
                        end)]
         else []) l
    = filter (fun kv => truthy (fst kv)) l).
  { induction l as [|[k v] l IH]; intros Hl; [reflexivity|].
    cbn [flat_map filter fst].
    rewrite (getItem_found ls k v Hnd) by (apply Hl; now left).
    rewrite IH by (intros x Hx; apply Hl; now right).
    destruct (truthy k); [|reflexivity]. now destruct v. }
  apply G, incl_refl.
Qed.

Lemma storage_items_are_the_entries_witness :
  NoDup (map fst [(lit "theme", lit "dark"); ([], lit "x")])
  /\ localStorageItems
       (this (state_after
                (loadLocalStorageItems
                   [(lit "theme", lit "dark"); ([], lit "x")])
                world0))
     = [(lit "theme", lit "dark")].
Proof.
  assert (H : NoDup (map fst [(lit "theme", lit "dark"); ([], lit "x")])).
  { repeat constructor; simpl; intuition discriminate. }
  split; [exact H|].
  exact (storage_items_are_the_entries
           [(lit "theme", lit "dark"); ([], lit "x")] world0 H).
Defined.

Lemma documents_step (i : Input) (w : World) :
  In (documents (this (state_after (handle i) w)))
     (documents (this w) :: payloads [i]).
Proof.
  destruct i as [|id res]; cbn [handle].
  - left. symmetry. apply tick_documents.
  - unfold state_after, respond, bind, read.
    destruct (observer_of id w) as [[|]|]; destruct res; cbn; auto.
Qed.

(** X22.  The documents held are at any time a list that one answer
    carried, whole, or the list held at the start: lists are never merged
    or cut. *)
Theorem documents_come_whole (inputs : list Input) (w : World) :
  In (documents (this (state_after (run inputs) w)))
     (documents (this w) :: payloads inputs).
Proof.
  revert w; induction inputs as [|i rest IH]; intros w; [now left|].
  cbn [run]. rewrite state_after_bind.
  assert (E : payloads (i :: rest) = payloads [i] ++ payloads rest)
    by (unfold payloads; simpl; now rewrite app_nil_r).
  rewrite E. clear E.
  destruct (IH (state_after (handle i) w)) as [H|H].
  - rewrite <- H. destruct (documents_step i w) as [E|E].
    + now left.
    + right. apply in_or_app. now left.
  - right. apply in_or_app. now right.
Qed.

End DocumentListExtras.
